(** * lg-utils: YAML candidate extraction and the two-layer retry agent

    A shallow embedding of

    - [lg_utils/parsers/yaml/utils.py]: [parse_multiline_yaml],
      [extract_yaml_segments] and the class [YAMLExtractor];
    - [lg_utils/types/__init__.py]: the class [StructuredAgent] with its
      two [tenacity] retry loops.

    Texts are lists of 8-bit code points.  The libraries the code calls
    ([yaml.safe_load], the Markdown converter behind [unmark], the model
    behind [llm.invoke], the user's post-processor) are parameters of the
    development.  Delays, Python floats in the source, are rationals. *)

From Stdlib Require Import List String Ascii Bool Arith Lia Sorted.
From Stdlib Require Import ZArith QArith Qminmax Qpower.
Import ListNotations.

Close Scope Q_scope.
Open Scope nat_scope.

Set Implicit Arguments.

(* ================================================================== *)
(** * Texts *)
(* ================================================================== *)

Module Text.

Definition text := list ascii.

(** A string literal as a text. *)
Definition T (s : string) : text := list_ascii_of_string s.

Definition nl : ascii := ascii_of_nat 10.
Definition colon : ascii := ascii_of_nat 58.

Definition is_nl (c : ascii) : bool := Ascii.eqb c nl.

(** [str.isspace] (and [\s] of a [str] pattern) on code points below 256:
    TAB..CR, FS..US, SPACE, NEL and NBSP. *)
Definition is_space (c : ascii) : bool :=
  let n := nat_of_ascii c in
  ((9 <=? n) && (n <=? 13)) || ((28 <=? n) && (n <=? 32))
  || (n =? 133) || (n =? 160).

Definition nonempty {A} (l : list A) : bool :=
  match l with [] => false | _ :: _ => true end.

Fixpoint lstrip (t : text) : text :=
  match t with
  | c :: t' => if is_space c then lstrip t' else t
  | [] => []
  end.

Definition rstrip (t : text) : text := rev (lstrip (rev t)).

(** [str.strip()] *)
Definition strip (t : text) : text := rstrip (lstrip t).

Fixpoint starts_with (p t : text) : bool :=
  match p, t with
  | [], _ => true
  | a :: p', b :: t' => Ascii.eqb a b && starts_with p' t'
  | _ :: _, [] => false
  end.

(** [l1] is [l2] with some elements left out, the others in their order. *)
Inductive subsequence {A} : list A -> list A -> Prop :=
| sub_nil : subsequence [] []
| sub_keep a l1 l2 : subsequence l1 l2 -> subsequence (a :: l1) (a :: l2)
| sub_drop a l1 l2 : subsequence l1 l2 -> subsequence l1 (a :: l2).

(** [":" in block] *)
Definition contains_colon (t : text) : bool :=
  existsb (fun c => Ascii.eqb c colon) t.

End Text.
Import Text.

(* ================================================================== *)
(** * The two regular expressions of [extract_yaml_segments] *)
(* ================================================================== *)

Module Regex.

(** ** [pattern_in_backticks]

    [```(?:yaml|YAML)?\n((?:(?!\n```)[\s\S])*?)\n```]: three backticks, an
    optional tag, a newline, then a lazy body none of whose characters
    starts a newline-plus-fence, then newline-plus-fence.  The body
    therefore ends at the first newline-plus-fence after the header. *)

Definition fence : text := [ascii_of_nat 96; ascii_of_nat 96; ascii_of_nat 96].
Definition closing : text := nl :: fence.

Definition header_len (t : text) : option nat :=
  if starts_with (fence ++ T "yaml" ++ [nl]) t
     || starts_with (fence ++ T "YAML" ++ [nl]) t then Some 8
  else if starts_with (fence ++ [nl]) t then Some 4
  else None.

(** Offset of the first newline-plus-fence in [t]. *)
Fixpoint find_close (t : text) : option nat :=
  if starts_with closing t then Some 0
  else match t with
       | [] => None
       | _ :: t' => option_map S (find_close t')
       end.

(** A match anchored at the head of [t]: its length and its group 1. *)
Definition match_at (t : text) : option (nat * text) :=
  match header_len t with
  | None => None
  | Some h =>
      let rest := skipn h t in
      match find_close rest with
      | None => None
      | Some k => Some (h + k + 4, firstn k rest)
      end
  end.

Record Match := { m_start : nat; m_end : nat; m_group1 : text }.

(** [re.finditer]: leftmost matches, the search resuming where the last
    match ended.  [skip] counts the characters of the current match still
    to pass over; [pos] is the offset of the head of [t]. *)
Fixpoint finditer_from (t : text) (pos skip : nat) : list Match :=
  match t with
  | [] => []
  | _ :: t' =>
      match skip with
      | S k => finditer_from t' (S pos) k
      | 0 =>
          match match_at t with
          | Some (len, body) =>
              {| m_start := pos; m_end := pos + len; m_group1 := body |}
                :: finditer_from t' (S pos) (len - 1)
          | None => finditer_from t' (S pos) 0
          end
      end
  end.

Definition finditer (t : text) : list Match := finditer_from t 0 0.


(** ** [\n\s*\n]

    After a newline the greedy [\s*] runs over the whole whitespace run and
    backs off to the last newline in it. *)

(** Length of the prefix of [t] that ends at the last newline of the
    maximal whitespace prefix of [t]. *)
Fixpoint last_nl_in_ws (t : text) : option nat :=
  match t with
  | [] => None
  | c :: t' =>
      if is_space c then
        match last_nl_in_ws t' with
        | Some k => Some (S k)
        | None => if is_nl c then Some 1 else None
        end
      else None
  end.

Definition sep_at (t : text) : option nat :=
  match t with
  | c :: t' => if is_nl c then option_map S (last_nl_in_ws t') else None
  | [] => None
  end.

(** [re.split]: [cur] is the current piece, reversed. *)
Fixpoint split_from (t : text) (skip : nat) (cur : text) : list text :=
  match t with
  | [] => [rev cur]
  | c :: t' =>
      match skip with
      | S k => split_from t' k cur
      | 0 =>
          match sep_at t with
          | Some len => rev cur :: split_from t' (len - 1) []
          | None => split_from t' 0 (c :: cur)
          end
      end
  end.

Definition re_split (t : text) : list text := split_from t 0 [].

End Regex.
Import Regex.

(* ================================================================== *)
(** * Python exceptions *)
(* ================================================================== *)

Module Exc.

(** The class of a raised exception, as far as the [isinstance] tests of
    the two retry predicates and of [except Exception] can tell: one of the
    four whitelisted built-in classes (or a subclass of it),
    [AttributeError], another subclass of [Exception], or a
    [BaseException] that is not an [Exception] ([KeyboardInterrupt],
    [SystemExit]). *)
Inductive exc_class :=
| ValueError | KeyError | TypeError | RuntimeError
| AttributeError | OtherException | NonException.

(** What a [ValueError] of [YAMLExtractor] says. *)
Inductive message :=
| StrategyMessage
    (* "Strategy must be 'first' or 'last'" *)
| MissingMandatory (segment : nat) (missing_keys : list string)
    (* "YAML segment {segment} is missing mandatory keys: {missing_keys}" *)
| NoValidYAML (required : list string)
    (* "No valid YAML found matching requirements. Required keys: {required}" *)
| NoAttribute (name : string)
    (* "'StructuredAgent' object has no attribute '{name}'" *)
| External (ident : nat).
    (* an exception object of a collaborator, told apart by [ident] *)

Record exc := { exc_cls : exc_class; exc_msg : message }.

Inductive outcome (A : Type) :=
| Return (a : A)
| Raise (e : exc).
Arguments Return {A} a.
Arguments Raise {A} e.

Definition exc_class_eqb (a b : exc_class) : bool :=
  match a, b with
  | ValueError, ValueError | KeyError, KeyError | TypeError, TypeError
  | RuntimeError, RuntimeError | AttributeError, AttributeError
  | OtherException, OtherException | NonException, NonException => true
  | _, _ => false
  end.

(** [isinstance(e, Exception)] *)
Definition is_Exception (e : exc) : bool :=
  negb (exc_class_eqb (exc_cls e) NonException).

(** [isinstance(e, classes)] for a tuple of the classes above. *)
Definition isinstance (e : exc) (classes : list exc_class) : bool :=
  existsb (exc_class_eqb (exc_cls e)) classes.

Definition value_error (m : message) : exc :=
  {| exc_cls := ValueError; exc_msg := m |}.

End Exc.
Import Exc.

(* ================================================================== *)
(** * [lg_utils/parsers/yaml/utils.py] *)
(* ================================================================== *)

Module YamlUtils.

(** What [yaml.safe_load] builds. *)
Inductive yaml_key :=
| KStr (s : string) | KInt (z : Z) | KBool (b : bool) | KNull.

#[local] Unset Elimination Schemes.
Inductive yaml_value :=
| YNull
| YBool (b : bool)
| YInt (z : Z)
| YFloat (q : Q)
| YStr (s : string)
| YSeq (items : list yaml_value)
| YMap (items : list (yaml_key * yaml_value)).
#[local] Set Elimination Schemes.

(** A candidate is a Python [dict]: its items, in insertion order. *)
Definition Candidate := list (yaml_key * yaml_value).

Inductive load_result :=
| Loaded (data : yaml_value)
| ScannerError
| ParserError
| OtherError.

(** [key in candidate] for a [str] key. *)
Definition key_in (key : string) (candidate : Candidate) : bool :=
  existsb (fun kv => match fst kv with
                     | KStr s => String.eqb s key
                     | _ => false
                     end) candidate.

Section Extraction.

(** [yaml.safe_load] and [Markdown.convert] with the plain-text output
    format that the module registers, each taken as a function of the
    text it is given. *)
Variable safe_load : text -> load_result.
Variable md_convert : text -> text.

Definition parse_multiline_yaml (yaml_string : text) : option Candidate :=
  match safe_load yaml_string with
  | Loaded (YMap data) => Some data
  | Loaded _ => None          (* logged: not a dictionary *)
  | ScannerError | ParserError => None
  | OtherError => None
  end.

Definition unmark (t : text) : text := md_convert t.

(** Step 1: the stripped, non-empty bodies of the fenced matches. *)
Fixpoint fenced_segments (matches : list Match) : list text :=
  match matches with
  | [] => []
  | m :: rest =>
      let segment_content := strip (m_group1 m) in
      if nonempty segment_content
      then segment_content :: fenced_segments rest
      else fenced_segments rest
  end.

(** Step 2: the fenced matches cut out of the text, last match first. *)
Definition cut (text_stripped : text) (m : Match) : text :=
  firstn (m_start m) text_stripped ++ skipn (m_end m) text_stripped.

Definition remove_matches (t : text) (matches : list Match) : text :=
  fold_left cut (rev matches) t.

(** Step 3: the stripped blocks that contain a colon. *)
Fixpoint standalone_segments (blocks : list text) : list text :=
  match blocks with
  | [] => []
  | block :: rest =>
      let stripped_block := strip block in
      if nonempty stripped_block && contains_colon stripped_block
      then stripped_block :: standalone_segments rest
      else standalone_segments rest
  end.

Definition potential_segments (t : text) : list text :=
  let matches_in_backticks := finditer t in
  fenced_segments matches_in_backticks
  ++ standalone_segments (re_split (remove_matches t matches_in_backticks)).

(** The last loop. *)
Fixpoint valid_segments (remove_markdown : bool) (segments : list text)
  : list Candidate :=
  match segments with
  | [] => []
  | segment :: rest =>
      let processed_segment :=
        if remove_markdown then unmark segment else segment in
      match parse_multiline_yaml processed_segment with
      | Some parsed_data => parsed_data :: valid_segments remove_markdown rest
      | None => valid_segments remove_markdown rest
      end
  end.

Definition extract_yaml_segments (t : text) (remove_markdown : bool)
  : list Candidate :=
  valid_segments remove_markdown (potential_segments t).



(** ** [YAMLExtractor] *)

Record YAMLExtractor := {
  mandatory_keys : list string;
  strategy : string
}.

(** [__init__(mandatory_keys=None, strategy="last")] *)
Definition YAMLExtractor_init (mandatory_keys : option (list string))
    (strategy : option string) : outcome YAMLExtractor :=
  let keys := match mandatory_keys with Some l => l | None => [] end in
  let strategy := match strategy with Some s => s | None => "last"%string end in
  if negb (String.eqb strategy "first" || String.eqb strategy "last")
  then Raise (value_error StrategyMessage)
  else Return {| mandatory_keys := keys; strategy := strategy |}.

Definition missing_keys (keys : list string) (candidate : Candidate)
  : list string :=
  filter (fun key => negb (key_in key candidate)) keys.

Definition has_all (keys : list string) (candidate : Candidate) : bool :=
  forallb (fun key => key_in key candidate) keys.

(** The strict loop over [enumerate(candidates)], from index [i]. *)
Fixpoint strict_check (keys : list string) (i : nat)
    (candidates : list Candidate) : option exc :=
  match candidates with
  | [] => None
  | candidate :: rest =>
      let missing := missing_keys keys candidate in
      if nonempty missing
      then Some (value_error (MissingMandatory (i + 1) missing))
      else strict_check keys (S i) rest
  end.

Definition extract_from_text (self : YAMLExtractor) (t : text)
    (exclude_non_mandatory : bool) : outcome (list Candidate) :=
  let candidates := extract_yaml_segments t false in
  if negb (nonempty (mandatory_keys self)) then Return candidates
  else if exclude_non_mandatory
  then Return (filter (has_all (mandatory_keys self)) candidates)
  else match strict_check (mandatory_keys self) 0 candidates with
       | Some e => Raise e
       | None => Return candidates
       end.

(** [process(text, exclude_non_mandatory=False)] *)
Definition process (self : YAMLExtractor) (t : text)
    (exclude_non_mandatory : bool) : outcome Candidate :=
  match extract_from_text self (strip t) exclude_non_mandatory with
  | Raise e => Raise e
  | Return [] => Raise (value_error (NoValidYAML (mandatory_keys self)))
  | Return (c :: cs) =>
      if String.eqb (strategy self) "first"
      then Return c
      else Return (last cs c)
  end.

End Extraction.

(** ** The pipeline as the specification words it

    The specification gives the extraction configuration a third field,
    [normalize_markdown], that decides whether every raw segment is
    normalized before it is parsed. *)
Record ExtractionConfig := {
  cfg_mandatory_keys : list string;
  cfg_strategy : string;
  cfg_normalize_markdown : bool
}.

Definition spec_candidates (safe_load : text -> load_result)
    (md_convert : text -> text) (cfg : ExtractionConfig) (t : text)
  : list Candidate :=
  extract_yaml_segments safe_load md_convert t (cfg_normalize_markdown cfg).

End YamlUtils.
Import YamlUtils.

(* ================================================================== *)
(** * [lg_utils/types/__init__.py]: [StructuredAgent] *)
(* ================================================================== *)

Module Agent.

(** ** The world an agent runs in

    What one call can be seen to do: calls of [llm.invoke] and of the
    post-processor, [time.sleep] between attempts and log records.  The
    trace is chronological. *)
Inductive event :=
| LLMInvoke (k : nat)                 (* the [k]-th call of [llm.invoke] *)
| PostProcess (k : nat)               (* the [k]-th call of [post_processor] *)
| Sleep (seconds : Q)
| WarnLLMRetry (attempt_number : nat) (* "LLM attempt {n} failed. Retrying..." *)
| WarnPPRetry (attempt_number : nat)  (* "Logic error/hallucination. ..." *)
| LogError (e : exc).                 (* "Processor ... failed after all retries." *)

Record World := {
  llm_calls : nat;
  pp_calls : nat;
  trace : list event
}.

Definition world0 : World := {| llm_calls := 0; pp_calls := 0; trace := [] |}.

(** Computations that read and change the world and return or raise. *)
Definition M (A : Type) : Type := World -> outcome A * World.

Definition ret {A} (a : A) : M A := fun w => (Return a, w).

Definition bind {A B} (m : M A) (f : A -> M B) : M B :=
  fun w => match m w with
           | (Return a, w') => f a w'
           | (Raise e, w') => (Raise e, w')
           end.

Notation "x <- m ;; k" := (bind m (fun x => k))
  (at level 61, m at next level, right associativity).

Definition emit (ev : event) : M unit :=
  fun w => (Return tt, {| llm_calls := llm_calls w; pp_calls := pp_calls w;
                          trace := trace w ++ [ev] |}).

(** ** Retry policies *)

Record RetryConfigs := {
  max_attempts : Z;
  wait_base : Q;
  wait_min : Q;
  wait_max : Q
}.

(** A [retry_configs] argument: the keys the caller gives. *)
Record RetryOverrides := {
  given_max_attempts : option Z;
  given_wait_base : option Q;
  given_wait_min : option Q;
  given_wait_max : option Q
}.

Definition default_retry : RetryConfigs :=
  {| max_attempts := 3; wait_base := 2 # 10; wait_min := 0; wait_max := 30 |}.

Definition or_default {A} (given : option A) (default : A) : A :=
  match given with Some a => a | None => default end.

(** [{**default_retry, **(retry_configs or {})}] *)
Definition merge_configs (given : option RetryOverrides) : RetryConfigs :=
  match given with
  | None => default_retry
  | Some o =>
      {| max_attempts := or_default (given_max_attempts o) (max_attempts default_retry);
         wait_base := or_default (given_wait_base o) (wait_base default_retry);
         wait_min := or_default (given_wait_min o) (wait_min default_retry);
         wait_max := or_default (given_wait_max o) (wait_max default_retry) |}
  end.

(** ** [tenacity] *)

(** [stop_after_attempt(n)]: [attempt_number >= n]. *)
Definition stop_after_attempt (max_attempt_number : Z) (attempt_number : nat)
  : bool :=
  (max_attempt_number <=? Z.of_nat attempt_number)%Z.

(** [wait_exponential(multiplier=1, max, exp_base, min)]:
    [max(max(0, min), min(multiplier * exp_base ** (attempt_number - 1), max))]. *)
Definition wait_exponential (exp_base min max : Q) (attempt_number : nat) : Q :=
  let exp := Qpower exp_base (Z.of_nat attempt_number - 1) in
  let result := Qmult 1 exp in
  Qmax (Qmax 0 min) (Qmin result max).

Record Retrying := {
  stop : Z;                 (* [stop_after_attempt(stop)] *)
  wait : nat -> Q;
  retry : exc -> bool;
  before : nat -> M unit
  (* [reraise=True]: at the stop the last exception is raised as it is *)
}.

(** The attempts of [for attempt in retryer: with attempt: body], from
    attempt [attempt_number] on.  [budget] is [stop - attempt_number], so
    that [stop_after_attempt] holds exactly when it is [0]. *)
Fixpoint attempts {A} (r : Retrying) (body : M A) (budget attempt_number : nat)
  : M A :=
  fun w =>
    let w1 := snd (before r attempt_number w) in
    match body w1 with
    | (Return a, w2) => (Return a, w2)
    | (Raise e, w2) =>
        if negb (retry r e) then (Raise e, w2)
        else match budget with
             | 0 => (Raise e, w2)
             | S budget' =>
                 attempts r body budget' (S attempt_number)
                   (snd (emit (Sleep (wait r attempt_number)) w2))
             end
    end.

Definition retrying {A} (r : Retrying) (body : M A) : M A :=
  attempts r body (Z.to_nat (stop r) - 1) 1.

(** The most attempts a loop with these settings makes: the first one and
    the budget left after it. *)
Definition attempts_of (configs : RetryConfigs) : nat :=
  S (Z.to_nat (max_attempts configs) - 1).

(** ** The agent *)

Definition LLM := nat -> outcome text.
Definition PostProcessor := nat -> text -> outcome Candidate.

Record StructuredAgent := {
  llm : option LLM;                 (* the attribute [self.llm], when set *)
  post_processor : PostProcessor;
  retry_configs : RetryConfigs;
  pp_retry_configs : RetryConfigs
}.

(** [lambda x: {"output": x}] *)
Definition default_post_processor : PostProcessor :=
  fun _ x => Return [(KStr "output", YStr (string_of_list_ascii x))].

(** [__init__]: [self.llm] is assigned only in the branch that builds the
    model with [init_chat_model]. *)
Definition StructuredAgent_init (llm_arg : option LLM) (init_chat_model : LLM)
    (post_processor_arg : option PostProcessor)
    (retry_configs_arg post_process_retry_configs_arg : option RetryOverrides)
  : StructuredAgent :=
  {| llm := match llm_arg with
            | None => Some init_chat_model
            | Some _ => None
            end;
     post_processor := or_default post_processor_arg default_post_processor;
     retry_configs := merge_configs retry_configs_arg;
     pp_retry_configs := merge_configs post_process_retry_configs_arg |}.

Definition build_retryer (configs : RetryConfigs) (exc_types : exc -> bool)
    (hook : nat -> M unit) : Retrying :=
  {| stop := max_attempts configs;
     wait := wait_exponential (wait_base configs) (wait_min configs)
               (wait_max configs);
     retry := exc_types;
     before := hook |}.

Definition log_retry_attempt (attempt_number : nat) : M unit :=
  if 1 <? attempt_number then emit (WarnLLMRetry attempt_number) else ret tt.

Definition log_post_process_retry (attempt_number : nat) : M unit :=
  if 1 <? attempt_number then emit (WarnPPRetry attempt_number) else ret tt.

(** The classes the inner layer retries on. *)
Definition pp_exc_types : list exc_class :=
  [ValueError; KeyError; TypeError; RuntimeError].

Definition llm_retryer (self : StructuredAgent) : Retrying :=
  build_retryer (retry_configs self) is_Exception log_retry_attempt.

Definition pp_retryer (self : StructuredAgent) : Retrying :=
  build_retryer (pp_retry_configs self)
    (fun e => isinstance e pp_exc_types) log_post_process_retry.

(** [self.llm.invoke(input_messages)] then [response.content] *)
Definition llm_invoke (self : StructuredAgent) : M text :=
  fun w =>
    match llm self with
    | None =>
        (Raise {| exc_cls := AttributeError; exc_msg := NoAttribute "llm" |}, w)
    | Some model =>
        (model (llm_calls w),
         {| llm_calls := S (llm_calls w); pp_calls := pp_calls w;
            trace := trace w ++ [LLMInvoke (llm_calls w)] |})
    end.

Definition invoke_llm (self : StructuredAgent) : M text :=
  retrying (llm_retryer self) (llm_invoke self).

Definition run_post_processor (self : StructuredAgent) (raw_content : text)
  : M Candidate :=
  fun w =>
    (post_processor self (pp_calls w) raw_content,
     {| llm_calls := llm_calls w; pp_calls := S (pp_calls w);
        trace := trace w ++ [PostProcess (pp_calls w)] |}).

(** The body of one inner attempt. *)
Definition pp_attempt (self : StructuredAgent) : M Candidate :=
  raw_content <- invoke_llm self ;;
  run_post_processor self raw_content.

(** Step 3 of [__call__]; the messages are rendered before it. *)
Definition call (self : StructuredAgent) : M Candidate :=
  fun w =>
    match retrying (pp_retryer self) (pp_attempt self) w with
    | (Return result, w') => (Return result, w')
    | (Raise e, w') =>
        if is_Exception e
        then (Raise e, snd (emit (LogError e) w'))
        else (Raise e, w')
    end.



End Agent.
Import Agent.

(* ================================================================== *)
(** * Sample behaviour of the libraries

    Finite tables of what PyYAML and the Markdown converter do on the few
    segments that the closed examples below feed them.  Nothing is stated
    about a segment outside the tables. *)
(* ================================================================== *)

Module Samples.

Fixpoint lookup {B} (table : list (text * B)) (t : text) : option B :=
  match table with
  | [] => None
  | (k, v) :: rest =>
      if String.eqb (string_of_list_ascii k) (string_of_list_ascii t)
      then Some v else lookup rest t
  end.

(** Lines joined by newlines. *)
Fixpoint lines (ls : list text) : text :=
  match ls with
  | [] => []
  | [l] => l
  | l :: rest => l ++ nl :: lines rest
  end.

Definition title_A : Candidate := [(KStr "title", YStr "A")].
Definition title_B : Candidate := [(KStr "title", YStr "B")].
Definition recipe_A : Candidate :=
  [(KStr "title", YStr "A"); (KStr "steps", YSeq [YStr "go"])].

Definition pyyaml_table : list (text * load_result) :=
  [ (T "title: A", Loaded (YMap title_A));
    (T "title: B", Loaded (YMap title_B));
    (lines [T "title: A"; T "steps:"; T "  - go"], Loaded (YMap recipe_A));
    (T "{}", Loaded (YMap []));
    (T "- a: 1", Loaded (YSeq [YMap [(KStr "a", YInt 1)]]));
    (T "http://example.org", Loaded (YStr "http://example.org"));
    (T "**title**: A", ScannerError);
    (T "a: b: c", ScannerError) ].

Definition pyyaml (t : text) : load_result :=
  match lookup pyyaml_table t with
  | Some r => r
  | None => OtherError
  end.

Definition markdown_table : list (text * text) :=
  [ (T "**title**: A", T "title: A");
    (T "title: A", T "title: A") ].

Definition markdown (t : text) : text :=
  match lookup markdown_table t with
  | Some r => r
  | None => t
  end.

(** A fenced block holding [body], with the [yaml] tag. *)
Definition fenced (body : text) : text :=
  lines [fence ++ T "yaml"; body; fence].

(** Paragraphs separated by a blank line. *)
Fixpoint paragraphs (ps : list text) : text :=
  match ps with
  | [] => []
  | [p] => p
  | p :: rest => p ++ nl :: nl :: paragraphs rest
  end.

(** A model whose [k]-th call raises exception number [k] of class [cls]. *)
Definition always_raises (cls : exc_class) : LLM :=
  fun k => Raise {| exc_cls := cls; exc_msg := External k |}.

(** A model that always answers [answer]. *)
Definition always_answers (answer : text) : LLM := fun _ => Return answer.

(** An agent built with every default, its model from [init_chat_model]. *)
Definition default_agent (init_chat_model : LLM) : StructuredAgent :=
  StructuredAgent_init None init_chat_model None None None.

(** [YAMLExtractor()] and an extractor used as post-processor. *)
Definition default_extractor : YAMLExtractor :=
  {| mandatory_keys := []; strategy := "last" |}.

Definition yaml_post_processor (self : YAMLExtractor) : PostProcessor :=
  fun _ raw_content => process pyyaml markdown self raw_content false.

Definition yaml_agent (init_chat_model : LLM) : StructuredAgent :=
  StructuredAgent_init None init_chat_model
    (Some (yaml_post_processor default_extractor)) None None.

Definition recipe_extractor (strategy : string) : YAMLExtractor :=
  {| mandatory_keys := ["title"; "steps"]%string; strategy := strategy |}.

(** A complete recipe in a fence, prose, then a fenced title alone. *)
Definition two_blocks : text :=
  paragraphs [ fenced (lines [T "title: A"; T "steps:"; T "  - go"]);
               T "some prose";
               fenced (T "title: B") ].

(** A fenced block followed by a standalone block of the same content. *)
Definition fenced_then_plain : text :=
  paragraphs [ fenced (T "title: A"); T "title: A" ].

Definition empty_mapping_block : text := lines [fence; T "{}"; fence].

Definition bold_key : text := T "**title**: A".

End Samples.
Import Samples.

(* ================================================================== *)
(** * Views of the scan used to state what it keeps *)
(* ================================================================== *)

Module Views.

(** No whitespace at either end. *)
Definition is_stripped (t : text) : bool :=
  match t with
  | [] => true
  | c :: r => negb (is_space c) && negb (is_space (last r c))
  end.

(** The three headers [pattern_in_backticks] accepts. *)
Definition headers : list text :=
  [fence ++ T "yaml" ++ [nl]; fence ++ T "YAML" ++ [nl]; fence ++ [nl]].

(** Offset [i] lies inside one of the matches. *)
Definition covered (ms : list Match) (i : nat) : bool :=
  existsb (fun m => (m_start m <=? i) && (i <? m_end m)) ms.

(** [[c for i, c in enumerate(t) if i is in no match]] *)
Definition uncovered (t : text) (ms : list Match) : text :=
  map snd (filter (fun p => negb (covered ms (fst p)))
                  (combine (seq 0 (List.length t)) t)).

(** The scan of [finditer_from], keeping the characters it passes between
    matches. *)
Fixpoint outside_from (t : text) (skip : nat) : text :=
  match t with
  | [] => []
  | c :: t' =>
      match skip with
      | S k => outside_from t' k
      | 0 =>
          match match_at t with
          | Some (len, _) => outside_from t' (len - 1)
          | None => c :: outside_from t' 0
          end
      end
  end.

(** No blank-line separator starts anywhere in [b]. *)
Definition blank_line_free (b : text) : Prop :=
  forall j, sep_at (skipn j b) = None.

End Views.
Import Views.

(* ================================================================== *)
(** * Reading a trace *)
(* ================================================================== *)

Module Traces.

Definition is_sleep (ev : event) : bool :=
  match ev with Sleep _ => true | _ => false end.

(** How many times the run slept. *)
Definition sleeps (tr : list event) : nat := List.length (filter is_sleep tr).

(** The AttributeError of [self.llm] on an agent without the attribute. *)
Definition no_llm : exc :=
  {| exc_cls := AttributeError; exc_msg := NoAttribute "llm" |}.




(** From [w] to [w'] the model was called at most [la] more times and the
    post-processor at most [pa] more times. *)
Definition grows_by (la pa : nat) (w w' : World) : Prop :=
  llm_calls w <= llm_calls w' <= llm_calls w + la
  /\ pp_calls w <= pp_calls w' <= pp_calls w + pa.

End Traces.
Import Traces.

(* ================================================================== *)
(** * [lg_utils/utils/__init__.py]: nested dictionaries *)
(* ================================================================== *)

Module NestedUtils.

(** Python values are those [yaml.safe_load] builds; the keys looked up
    and the path parts are [str]. *)
Definition dict := list (yaml_key * yaml_value).

(** The TypeErrors of [key in data], [data[key]] and [data[key] = v] on
    something that is not a dictionary. *)
Inductive type_error :=
| NotIterable (data : yaml_value)
    (* "argument of type '...' is not iterable" *)
| BadIndex (data : yaml_value) (key : string).
    (* "... indices must be integers", "... does not support item assignment" *)

Inductive result (A : Type) :=
| Ok (a : A)
| TypeErr (e : type_error).
Arguments Ok {A} a.
Arguments TypeErr {A} e.

Definition is_key (key : string) (k : yaml_key) : bool :=
  match k with KStr s => String.eqb s key | _ => false end.

(** [items[key]] when [key in items] *)
Fixpoint dict_get (items : dict) (key : string) : option yaml_value :=
  match items with
  | [] => None
  | (k, v) :: rest => if is_key key k then Some v else dict_get rest key
  end.

(** [items[key] = v]: in place when the key is there, at the end when not. *)
Fixpoint dict_set (items : dict) (key : string) (v : yaml_value) : dict :=
  match items with
  | [] => [(KStr key, v)]
  | (k, x) :: rest =>
      if is_key key k then (k, v) :: rest else (k, x) :: dict_set rest key v
  end.

(** [key in s] for two strings. *)
Fixpoint occurs_in (p t : text) : bool :=
  starts_with p t
  || match t with
     | [] => false
     | _ :: t' => occurs_in p t'
     end.

Definition str_in (key s : string) : bool :=
  occurs_in (list_ascii_of_string key) (list_ascii_of_string s).

(** [key in l] for a list: some element equals the string. *)
Definition list_in (key : string) (l : list yaml_value) : bool :=
  existsb (fun x => match x with YStr s => String.eqb s key | _ => false end) l.

(** [get_nested_value(data, keys, default_value)] *)
Fixpoint get_nested_value (data : yaml_value) (keys : list string)
    (default_value : yaml_value) : result yaml_value :=
  match keys with
  | [] => Ok data
  | key :: rest =>
      match data with
      | YMap items =>
          match dict_get items key with
          | Some v => get_nested_value v rest default_value
          | None => Ok default_value
          end
      | YStr s =>
          if str_in key s then TypeErr (BadIndex data key)
          else Ok default_value
      | YSeq l =>
          if list_in key l then TypeErr (BadIndex data key)
          else Ok default_value
      | _ => TypeErr (NotIterable data)
      end
  end.

(** One round of the loop of [recusvie_load_files]: [dirs] is [parts[:-1]],
    [name] is [parts[-1]] and [content] what was read and parsed.  The
    traversal creates the dictionaries that are missing. *)
Fixpoint store (current_level : dict) (dirs : list string) (name : string)
    (content : yaml_value) : result dict :=
  match dirs with
  | [] => Ok (dict_set current_level name content)
  | part :: rest =>
      let next := match dict_get current_level part with
                  | Some x => x
                  | None => YMap []
                  end in
      match next with
      | YMap sub =>
          match store sub rest name content with
          | Ok sub' => Ok (dict_set current_level part (YMap sub'))
          | TypeErr e => TypeErr e
          end
      | YStr _ | YSeq _ =>
          match rest with
          | [] => TypeErr (BadIndex next name)
          | part' :: _ => TypeErr (BadIndex next part')
          end
      | _ =>
          match rest with
          | [] => TypeErr (BadIndex next name)
          | _ :: _ => TypeErr (NotIterable next)
          end
      end
  end.

(** A file found by the glob: the parts of its relative path without the
    extension, and its content, read and parsed. *)
Record file := {
  f_dirs : list string;
  f_name : string;
  f_content : yaml_value
}.

Definition f_parts (f : file) : list string := f_dirs f ++ [f_name f].

(** [recusvie_load_files], from the files the glob found, in its order. *)
Fixpoint load_into (file_registry : dict) (files : list file) : result dict :=
  match files with
  | [] => Ok file_registry
  | f :: rest =>
      match store file_registry (f_dirs f) (f_name f) (f_content f) with
      | Ok registry' => load_into registry' rest
      | TypeErr e => TypeErr e
      end
  end.

Definition recusvie_load_files (files : list file) : result dict :=
  load_into [] files.

(** The path [keys] leads from [data] to [v] through dictionaries. *)
Inductive resolves : yaml_value -> list string -> yaml_value -> Prop :=
| resolves_here data : resolves data [] data
| resolves_down items key keys v w :
    dict_get items key = Some v ->
    resolves v keys w ->
    resolves (YMap items) (key :: keys) w.

(** Two paths part ways at some component. *)
Definition diverge (p q : list string) : Prop :=
  exists c a b p' q', p = c ++ a :: p' /\ q = c ++ b :: q' /\ a <> b.

Definition is_dict (v : yaml_value) : bool :=
  match v with YMap _ => true | _ => false end.

End NestedUtils.
Import NestedUtils.

(* ================================================================== *)
(** * [lg_utils/utils/__init__.py]: nested attributes *)
(* ================================================================== *)

Module NestedAttributes.

(** An object, as far as [hasattr] and [getattr] can tell: the
    attributes it has, each an object. *)
#[local] Unset Elimination Schemes.
Inductive pyobj := Obj (attrs : list (string * pyobj)).
#[local] Set Elimination Schemes.

Definition attrs_of (o : pyobj) : list (string * pyobj) :=
  match o with Obj attrs => attrs end.

(** [getattr(obj, name)] when [hasattr(obj, name)] *)
Fixpoint attr_lookup (attrs : list (string * pyobj)) (name : string)
  : option pyobj :=
  match attrs with
  | [] => None
  | (n, o) :: rest => if String.eqb n name then Some o else attr_lookup rest name
  end.

Definition dot : ascii := ascii_of_nat 46.

(** [str.split('.')]: [cur] is the current part, reversed. *)
Fixpoint split_dot_from (t : text) (cur : text) : list text :=
  match t with
  | [] => [rev cur]
  | c :: t' =>
      if Ascii.eqb c dot then rev cur :: split_dot_from t' []
      else split_dot_from t' (c :: cur)
  end.

Definition split_dot (t : text) : list text := split_dot_from t [].

(** The loop over the parts. *)
Fixpoint walk_attributes (current_obj : pyobj) (parts : list text)
    (default_value : pyobj) : pyobj :=
  match parts with
  | [] => current_obj
  | part :: rest =>
      match attr_lookup (attrs_of current_obj) (string_of_list_ascii part) with
      | Some o => walk_attributes o rest default_value
      | None => default_value
      end
  end.

(** [get_nested_attribute(obj, attribute_path, default_value)] *)
Definition get_nested_attribute (obj : pyobj) (attribute_path : text)
    (default_value : pyobj) : pyobj :=
  walk_attributes obj (split_dot attribute_path) default_value.

(** ['.'.join(parts)] *)
Fixpoint join_dot (parts : list text) : text :=
  match parts with
  | [] => []
  | [p] => p
  | p :: rest => p ++ dot :: join_dot rest
  end.

Definition dot_free (t : text) : bool :=
  forallb (fun c => negb (Ascii.eqb c dot)) t.

End NestedAttributes.
Import NestedAttributes.

(* ================================================================== *)
(** * [lg_utils/parsers/yaml/utils.py]: plain text of an element tree *)
(* ================================================================== *)

Module Unmark.

(** An [xml.etree] element: its text, its sub-elements, its tail. *)
#[local] Unset Elimination Schemes.
Inductive Element :=
| Elem (tag : string) (text : option Text.text) (children : list Element)
       (tail : option Text.text).
#[local] Set Elimination Schemes.

(** [if s: stream.write(s)]: nothing for [None] and for the empty
    string. *)
Definition write_if (s : option text) (stream : text) : text :=
  match s with
  | Some (c :: r) => stream ++ c :: r
  | _ => stream
  end.

(** [_walk_element(element, stream)], the stream being what was written
    to it so far. *)
Fixpoint _walk_element (element : Element) (stream : text) : text :=
  match element with
  | Elem _ text children tail =>
      let stream := write_if text stream in
      let stream :=
        (fix walk_all (subs : list Element) (stream : Text.text) : Text.text :=
           match subs with
           | [] => stream
           | sub_element :: rest => walk_all rest (_walk_element sub_element stream)
           end) children stream in
      write_if tail stream
  end.

(** The loop of [_walk_element] over the sub-elements, by itself. *)
Definition walk_all : list Element -> text -> text :=
  fix walk_all (subs : list Element) (stream : text) : text :=
    match subs with
    | [] => stream
    | sub_element :: rest => walk_all rest (_walk_element sub_element stream)
    end.

(** [_unmark_element(element)] *)
Definition _unmark_element (element : Element) : text :=
  _walk_element element [].

Definition text_or_empty (s : option text) : text :=
  match s with Some x => x | None => [] end.

End Unmark.
Import Unmark.

(* ================================================================== *)
(** * [lg_utils/parser/__init__.py]: [YamlPydanticParser] *)
(* ================================================================== *)

Module Parser.

(** What [pydantic_model.model_validate(data)] does: the typed object, or
    a ValidationError with its diagnostics. *)
Inductive validation (T D : Type) :=
| Valid (obj : T)
| ValidationError (diagnostics : D).
Arguments Valid {T D} obj.
Arguments ValidationError {T D} diagnostics.

(** What [parse] raises: an OutputParserException of its own, or the
    exception of the extractor, as it is. *)
Inductive parse_error (D : Type) :=
| InvalidYAMLSyntax (e : exc)          (* "Invalid YAML Syntax: {e}" *)
| SchemaValidationFailed (diagnostics : D)
                                       (* "Schema Validation Failed: {e}" *)
| Propagated (e : exc).
Arguments InvalidYAMLSyntax {D} e.
Arguments SchemaValidationFailed {D} diagnostics.
Arguments Propagated {D} e.

Section Parse.

Variable safe_load : text -> load_result.
Variable md_convert : text -> text.
(** [isinstance(e, yaml.YAMLError)] *)
Variable is_YAMLError : exc -> bool.
Variables T D : Type.
Variable model_validate : Candidate -> validation T D.

(** [extract_yaml_content = YAMLExtractor()] and its [__call__] *)
Definition extract_yaml_content (t : text) : outcome Candidate :=
  process safe_load md_convert
    {| mandatory_keys := []; strategy := "last" |} t false.

(** [YamlPydanticParser.parse] *)
Definition parse (t : text) : T + parse_error D :=
  match extract_yaml_content t with
  | Raise e =>
      if is_YAMLError e then inr (InvalidYAMLSyntax e) else inr (Propagated e)
  | Return data =>
      match model_validate data with
      | Valid obj => inl obj
      | ValidationError diagnostics => inr (SchemaValidationFailed diagnostics)
      end
  end.

End Parse.

End Parser.
Import Parser.

(* ================================================================== *)
(** * [lg_utils/utils.py]: [truncate_text_to_token_limit] *)
(* ================================================================== *)

Module Truncate.

(** The shape of [tokenizer(text, return_tensors="pt")['input_ids']]:
    [len(...)] is [rows], [.shape[-1]] is [cols]. *)
Record Encoding := { rows : nat; cols : nat }.

Inductive error :=
| MaxTokensNotPositive   (* ValueError("max_tokens must be positive") *)
| LoggerIsNone           (* AttributeError: [logger] is [None] *)
| Raised (e : exc).      (* raised by the tokenizer, as it is *)

Inductive result (A : Type) :=
| Done (a : A)
| Fail (e : error).
Arguments Done {A} a.
Arguments Fail {A} e.

Definition space : ascii := ascii_of_nat 32.

(** [str.split()]: the maximal runs without whitespace; [cur] is the
    current run, reversed. *)
Fixpoint split_ws_from (t : text) (cur : text) : list text :=
  match t with
  | [] => if nonempty cur then [rev cur] else []
  | c :: t' =>
      if is_space c
      then (if nonempty cur then rev cur :: split_ws_from t' []
            else split_ws_from t' [])
      else split_ws_from t' (c :: cur)
  end.

Definition split_ws (t : text) : list text := split_ws_from t [].

(** [" ".join(words)] *)
Fixpoint join_space (words : list text) : text :=
  match words with
  | [] => []
  | [w] => w
  | w :: rest => w ++ space :: join_space rest
  end.

Section Truncate.

(** The tokenizer, as a function of the text; the decoding of the first
    [max_tokens] token ids of a text; whether a logger was passed.  The
    block that would build a logger tests the module [logging], never
    [None], so a logger that was not passed stays missing. *)
Variable tokenizer : text -> outcome Encoding.
Variable decode_prefix : text -> Z -> outcome text.
Variable max_tokens : Z.
Variable ellipsis : text.
Variable verbose : bool.
Variable logger : bool.

(** [logger.error(...)], [logger.info(...)] *)
Definition log {A} (k : result A) : result A :=
  if logger then k else Fail LoggerIsNone.

(** The first [while]: [kept_rev] is [words_to_keep], last word first. *)
Fixpoint shrink (kept_rev : list text) : result (list text) :=
  match tokenizer (join_space (rev kept_rev)) with
  | Raise e => Fail (Raised e)
  | Return enc =>
      if (max_tokens <? Z.of_nat (rows enc))%Z then
        match kept_rev with
        | _ :: ((_ :: _) as rest) =>
            if verbose then log (shrink rest) else shrink rest
        | _ => Done kept_rev
        end
      else Done kept_rev
  end.

(** The second [while]: the words left, and the exception that stopped
    the loop if one did. *)
Fixpoint make_room (ellipsis_tokens : nat) (kept_rev : list text)
  : list text * option exc :=
  match tokenizer (join_space (rev kept_rev)) with
  | Raise e => (kept_rev, Some e)
  | Return enc =>
      if (max_tokens <? Z.of_nat (rows enc + ellipsis_tokens))%Z then
        match kept_rev with
        | _ :: ((_ :: _) as rest) => make_room ellipsis_tokens rest
        | _ => (kept_rev, None)
        end
      else (kept_rev, None)
  end.

(** [except Exception as e: logger.error(...)] inside the ellipsis block,
    [final] being [final_text_with_ellipsis] at that point. *)
Definition caught (e : exc) (final : text) : result text :=
  if is_Exception e then log (Done final) else Fail (Raised e).

(** The ellipsis block. *)
Definition add_ellipsis (n_words : nat) (kept_rev : list text) : result text :=
  let current_text := join_space (rev kept_rev) in
  if List.length kept_rev <? n_words then
    match tokenizer ellipsis with
    | Raise e => caught e current_text
    | Return enc_e =>
        let ellipsis_tokens := rows enc_e in
        match tokenizer current_text with
        | Raise e => caught e current_text
        | Return enc_c =>
            if (Z.of_nat (rows enc_c + ellipsis_tokens) <=? max_tokens)%Z
            then Done (current_text ++ ellipsis)
            else
              match make_room ellipsis_tokens kept_rev with
              | (kept', Some e) => caught e (join_space (rev kept'))
              | (kept', None) =>
                  let final := join_space (rev kept') in
                  Done (if nonempty final then final ++ ellipsis else final)
              end
        end
    end
  else Done current_text.

(** The safeguard at the end. *)
Definition finish (final : text) : result text :=
  match tokenizer final with
  | Raise e => Fail (Raised e)
  | Return final_tokens =>
      if (max_tokens <? Z.of_nat (cols final_tokens))%Z then
        match decode_prefix final max_tokens with
        | Return decoded => Done decoded
        | Raise e => Fail (Raised e)
        end
      else Done final
  end.

Definition truncate_text_to_token_limit (t : text) : result text :=
  if (max_tokens <=? 0)%Z then Fail MaxTokensNotPositive
  else
    let stripped_text := strip t in
    if negb (nonempty stripped_text) then Done stripped_text
    else
      match tokenizer stripped_text with
      | Raise e =>
          if is_Exception e then log (Done stripped_text) else Fail (Raised e)
      | Return initial_tokens =>
          if (Z.of_nat (cols initial_tokens) <=? max_tokens)%Z
          then Done stripped_text
          else
            let words := split_ws stripped_text in
            if negb (nonempty words) then Done stripped_text
            else
              let estimated_target_words :=
                Z.max 1 (Z.of_nat (List.length words) * max_tokens
                         / Z.of_nat (cols initial_tokens)) in
              let words_to_keep :=
                firstn (Z.to_nat estimated_target_words) words in
              match shrink (rev words_to_keep) with
              | Fail e => Fail e
              | Done kept_rev =>
                  match add_ellipsis (List.length words) kept_rev with
                  | Fail e => Fail e
                  | Done final => finish final
                  end
              end
      end.

End Truncate.

(** [kept] is the beginning of [words]. *)
Definition is_prefix {A} (kept words : list A) : Prop :=
  exists rest, words = kept ++ rest.

End Truncate.
Import Truncate.

(* ================================================================== *)
(** * [StructuredAgent.__call__]: the variables handed to the templates *)
(* ================================================================== *)

Module Payloads.

(** A dictionary with [str] keys: [prompt_defaults], [state],
    [vars(runtime.context)]. *)
Definition sdict := list (string * yaml_value).

Fixpoint sget (d : sdict) (key : string) : option yaml_value :=
  match d with
  | [] => None
  | (k, v) :: rest => if String.eqb k key then Some v else sget rest key
  end.

Fixpoint sset (d : sdict) (key : string) (v : yaml_value) : sdict :=
  match d with
  | [] => [(key, v)]
  | (k, x) :: rest =>
      if String.eqb k key then (k, v) :: rest else (k, x) :: sset rest key v
  end.

(** [{**a, **b}]: the items of [b] written over [a], in their order. *)
Definition update (a b : sdict) : sdict :=
  fold_left (fun acc kv => sset acc (fst kv) (snd kv)) b a.

(** [not k.startswith('_')] *)
Definition is_public (k : string) : bool := negb (String.prefix "_" k).

(** [isinstance(v, (str, int, float, bool))] *)
Definition is_scalar (v : yaml_value) : bool :=
  match v with
  | YStr _ | YInt _ | YFloat _ | YBool _ => true
  | _ => false
  end.

(** [runtime]: [None] when it is missing or falsy, [Some None] when it has
    no attribute [context], [Some (Some ctx)] with [ctx] the
    [vars(runtime.context)] otherwise. *)
Definition runtime_var (runtime : option (option sdict)) : sdict :=
  match runtime with
  | Some (Some ctx) =>
      filter (fun kv => is_public (fst kv) && is_scalar (snd kv)) ctx
  | _ => []
  end.

(** [{**self.prompt_defaults, **state, **runtime_var}] *)
Definition payloads (prompt_defaults state : sdict)
    (runtime : option (option sdict)) : sdict :=
  update (update (update [] prompt_defaults) state) (runtime_var runtime).

Definition keys_unique (d : sdict) : Prop := NoDup (map fst d).

End Payloads.
Import Payloads.

(* ================================================================== *)
(** * More samples *)
(* ================================================================== *)

Module MoreSamples.

(** A model that raises at its first [j] calls and answers [a] from then
    on. *)
Definition fails_then_answers (j : nat) (a : text) : LLM :=
  fun k => if k <? j
           then Raise {| exc_cls := OtherException; exc_msg := External k |}
           else Return a.

(** A post-processor that rejects whatever it is given. *)
Definition always_rejects : PostProcessor :=
  fun k _ => Raise {| exc_cls := KeyError; exc_msg := External k |}.

Definition rejecting_agent (init_chat_model : LLM) : StructuredAgent :=
  StructuredAgent_init None init_chat_model (Some always_rejects) None None.

(** Two files of one directory, and a file with a directory of its
    name. *)
Definition greet_file : file :=
  {| f_dirs := ["prompts"%string]; f_name := "greet";
     f_content := YStr "hello" |}.
Definition bye_file : file :=
  {| f_dirs := ["prompts"%string]; f_name := "bye";
     f_content := YStr "so long" |}.
Definition below_greet_file : file :=
  {| f_dirs := ["prompts"; "greet"]%string; f_name := "formal";
     f_content := YStr "good day" |}.

Definition sample_registry : dict :=
  [(KStr "prompts", YMap [(KStr "greet", YStr "hello");
                          (KStr "count", YInt 2)])].

(** An object with an attribute [context] that has an attribute [user]. *)
Definition sample_runtime : pyobj :=
  Obj [("context"%string, Obj [("user"%string, Obj [])])].

(** A schema that asks for a title. *)
Definition title_schema (data : Candidate) : validation Candidate string :=
  if key_in "title" data then Valid data else ValidationError "title"%string.

(** A tokenizer with one token per word, in one row, and its decoding. *)
Definition word_tokenizer (t : text) : outcome Encoding :=
  Return {| rows := 1; cols := List.length (split_ws t) |}.

Definition word_decode (t : text) (n : Z) : outcome text :=
  Return (join_space (firstn (Z.to_nat n) (split_ws t))).

(** A tokenizer that fails. *)
Definition broken_tokenizer (t : text) : outcome Encoding :=
  Raise {| exc_cls := RuntimeError; exc_msg := External 0 |}.

End MoreSamples.
Import MoreSamples.

(* ================================================================== *)
(** * Facts about texts and the regular expressions *)
(* ================================================================== *)

Example finditer_ex :
  finditer (T "a" ++ fenced (T "k: v") ++ T "z")
  = [ {| m_start := 1; m_end := 17; m_group1 := T "k: v" |} ].
Proof. reflexivity. Qed.

Example re_split_ex :
  re_split (T "a" ++ [nl; " "%char; nl; nl] ++ T "b" ++ [nl] ++ T "c" ++ [nl; nl])
  = [T "a"; T "b" ++ [nl] ++ T "c"; []].
Proof. reflexivity. Qed.

Example strip_ex : strip (T "  a b " ++ [nl]) = T "a b".
Proof. reflexivity. Qed.

(** A match is at least a header and a closing fence long. *)
Lemma match_at_len (t : text) (len : nat) (body : text) :
  match_at t = Some (len, body) -> 8 <= len.
Proof.
  unfold match_at, header_len.
  destruct (starts_with _ t || starts_with _ t);
    [| destruct (starts_with _ t); [| discriminate]];
    destruct (find_close _); try discriminate;
    intros H; injection H as <- _; lia.
Qed.

Lemma finditer_from_bounds (t : text) :
  forall pos skip m,
    In m (finditer_from t pos skip) ->
    pos + skip <= m_start m /\ m_start m < m_end m.
Proof.
  induction t as [| c t IH]; intros pos skip m; simpl; [tauto |].
  destruct skip as [| k].
  - destruct (match_at (c :: t)) as [[len body] |] eqn:E.
    + apply match_at_len in E.
      intros [<- | Hin]; simpl; [lia |].
      apply IH in Hin. lia.
    + intros Hin. apply IH in Hin. lia.
  - intros Hin. apply IH in Hin. lia.
Qed.


(* ================================================================== *)
(** * Extraction and selection *)
(* ================================================================== *)

Section ExtractionFacts.

Variable safe_load : text -> load_result.
Variable md_convert : text -> text.

Local Abbreviation parse := (parse_multiline_yaml safe_load).
Local Abbreviation valid := (valid_segments safe_load md_convert).
Local Abbreviation extract := (extract_yaml_segments safe_load md_convert).
Local Abbreviation from_text := (extract_from_text safe_load md_convert).
Local Abbreviation run := (process safe_load md_convert).

Lemma parse_Some (s : text) (c : Candidate) :
  parse s = Some c <-> safe_load s = Loaded (YMap c).
Proof.
  unfold parse_multiline_yaml.
  destruct (safe_load s) as [[] | | |]; simpl; split; intros H;
    try discriminate; now inversion H.
Qed.


Lemma In_valid_segments (rm : bool) (segs : list text) (c : Candidate) :
  In c (valid rm segs) <->
  exists seg, In seg segs
              /\ parse (if rm then unmark md_convert seg else seg) = Some c.
Proof.
  induction segs as [| s segs IH]; simpl.
  - split; [tauto | intros [? [[] _]]].
  - destruct (parse (if rm then unmark md_convert s else s)) as [d |] eqn:E.
    + simpl. rewrite IH. split.
      * intros [<- | [seg [Hin Hp]]]; [exists s | exists seg]; tauto.
      * intros [seg [[<- | Hin] Hp]]; [left; congruence | right; eauto].
    + rewrite IH. split.
      * intros [seg [Hin Hp]]; exists seg; tauto.
      * intros [seg [[<- | Hin] Hp]]; [congruence | eauto].
Qed.

Lemma has_all_missing (keys : list string) (c : Candidate) :
  has_all keys c = true <-> missing_keys keys c = [].
Proof.
  unfold has_all, missing_keys.
  induction keys as [| k keys IH]; simpl; [tauto |].
  destruct (key_in k c); simpl; [exact IH |].
  split; discriminate.
Qed.

Lemma has_all_spec (keys : list string) (c : Candidate) :
  has_all keys c = true <-> forall k, In k keys -> key_in k c = true.
Proof. unfold has_all. apply forallb_forall. Qed.

Lemma missing_keys_spec (keys : list string) (c : Candidate) (k : string) :
  In k (missing_keys keys c) <-> In k keys /\ key_in k c = false.
Proof.
  unfold missing_keys. rewrite filter_In, negb_true_iff. tauto.
Qed.

Lemma nonempty_false {A} (l : list A) : nonempty l = false <-> l = [].
Proof. destruct l; simpl; split; congruence. Qed.

Lemma strict_check_None (keys : list string) (cs : list Candidate) :
  forall i,
    strict_check keys i cs = None <->
    forall c, In c cs -> has_all keys c = true.
Proof.
  induction cs as [| c cs IH]; intros i; simpl.
  - split; [intros _ ? [] | reflexivity].
  - destruct (nonempty (missing_keys keys c)) eqn:E.
    + split; [discriminate |].
      intros H. specialize (H c (or_introl eq_refl)).
      apply has_all_missing in H. rewrite H in E. discriminate.
    + rewrite IH. apply nonempty_false, has_all_missing in E.
      split; [intros H d [<- | Hin]; auto | intros H d Hin; auto].
Qed.

(** The strict loop stops at the first candidate that misses a key and
    numbers it from one. *)
Lemma strict_check_first (keys : list string) (cs : list Candidate) :
  forall i,
    (exists c, In c cs /\ has_all keys c = false) ->
    exists j c,
      nth_error cs j = Some c
      /\ missing_keys keys c <> []
      /\ (forall j' c', j' < j -> nth_error cs j' = Some c' ->
                        has_all keys c' = true)
      /\ strict_check keys i cs
         = Some (value_error (MissingMandatory (i + j + 1)
                                               (missing_keys keys c))).
Proof.
  induction cs as [| c cs IH]; intros i [d [Hin Hd]]; [destruct Hin |].
  simpl. destruct (nonempty (missing_keys keys c)) eqn:E.
  - exists 0, c. repeat split.
    + intros H. rewrite H in E. discriminate.
    + intros j' c' Hlt. lia.
    + now rewrite Nat.add_0_r.
  - apply nonempty_false in E.
    assert (Hc : has_all keys c = true) by now apply has_all_missing.
    destruct Hin as [<- | Hin]; [congruence |].
    destruct (IH (S i) (ex_intro _ d (conj Hin Hd)))
      as [j [c0 [Hn [Hm [Hbefore Hs]]]]].
    exists (S j), c0. repeat split; auto.
    + intros [| j'] c' Hlt Hn'; simpl in Hn'.
      * congruence.
      * apply (Hbefore j'); [lia | exact Hn'].
    + rewrite Hs. now replace (S i + j + 1) with (i + S j + 1) by lia.
Qed.

Lemma filter_all {A} (f : A -> bool) (l : list A) :
  (forall a, In a l -> f a = true) -> filter f l = l.
Proof.
  induction l as [| a l IH]; simpl; intros H; [reflexivity |].
  rewrite (H a (or_introl eq_refl)), IH; auto.
Qed.

(** When no candidate misses a key, both modes return all of them. *)
Lemma extract_from_text_all (self : YAMLExtractor) (t : text) (excl : bool) :
  (forall c, In c (extract t false) -> has_all (mandatory_keys self) c = true) ->
  from_text self t excl = Return (extract t false).
Proof.
  intros H. unfold extract_from_text.
  destruct (nonempty (mandatory_keys self)); simpl; [| reflexivity].
  destruct excl.
  - now rewrite filter_all.
  - apply (strict_check_None _ _ 0) in H. now rewrite H.
Qed.


Lemma last_In_nonempty {A} (cs : list A) :
  forall d, cs <> [] -> In (last cs d) cs.
Proof.
  induction cs as [| a cs IH]; intros d H; [congruence |].
  destruct cs as [| b cs]; [now left |].
  right. apply IH. discriminate.
Qed.

Lemma last_In {A} (cs : list A) (c : A) : In (last cs c) (c :: cs).
Proof.
  destruct cs as [| a cs]; [now left |].
  right. apply last_In_nonempty. discriminate.
Qed.

Lemma filter_subsequence {A} (f : A -> bool) (l : list A) :
  subsequence (filter f l) l.
Proof.
  induction l as [| a l IH]; simpl; [constructor |].
  destruct (f a); now constructor.
Qed.

Lemma valid_segments_unmark (segs : list text) :
  valid true segs = valid false (map (unmark md_convert) segs).
Proof.
  induction segs as [| s segs IH]; simpl; [reflexivity |].
  destruct (parse _); now rewrite IH.
Qed.

Lemma valid_segments_raw (md : text -> text) (segs : list text) :
  valid_segments safe_load md false segs = valid false segs.
Proof.
  induction segs as [| s segs IH]; simpl; [reflexivity |].
  destruct (parse _); now rewrite IH.
Qed.

(** ** Strict mode *)

(** C3. In strict mode with a non-empty list of mandatory keys, as soon as
    some extracted candidate misses a mandatory key, selection raises the
    ValueError that carries the one-based number of the first such
    candidate and the keys it misses, whatever the other candidates
    hold. *)
Theorem strict_mode_names_first_incomplete
    (self : YAMLExtractor) (t : text) :
  mandatory_keys self <> [] ->
  (exists c, In c (extract (strip t) false)
             /\ has_all (mandatory_keys self) c = false) ->
  exists i c,
    nth_error (extract (strip t) false) i = Some c
    /\ missing_keys (mandatory_keys self) c <> []
    /\ (forall k, In k (missing_keys (mandatory_keys self) c) <->
                  In k (mandatory_keys self) /\ key_in k c = false)
    /\ (forall j c', j < i -> nth_error (extract (strip t) false) j = Some c' ->
                     has_all (mandatory_keys self) c' = true)
    /\ from_text self (strip t) false
       = Raise (value_error
                  (MissingMandatory (i + 1)
                     (missing_keys (mandatory_keys self) c)))
    /\ run self t false
       = Raise (value_error
                  (MissingMandatory (i + 1)
                     (missing_keys (mandatory_keys self) c))).
Proof.
  intros Hkeys Hex.
  destruct (@strict_check_first (mandatory_keys self) _ 0 Hex)
    as [i [c [Hn [Hm [Hbefore Hs]]]]].
  exists i, c.
  assert (Hraise : from_text self (strip t) false
                   = Raise (value_error
                              (MissingMandatory (i + 1)
                                 (missing_keys (mandatory_keys self) c)))).
  { unfold extract_from_text.
    destruct (mandatory_keys self) as [| k ks] eqn:Ek; [congruence |].
    simpl nonempty. simpl negb. cbv iota. now rewrite Hs. }
  split; [exact Hn |].
  split; [exact Hm |].
  split; [intros k; apply missing_keys_spec |].
  split; [exact Hbefore |].
  split; [exact Hraise |].
  unfold process. now rewrite Hraise.
Qed.

(** ** Order of the candidates *)


(** ** Selection *)

Lemma extract_from_text_nothing (self : YAMLExtractor) (t : text)
    (excl : bool) :
  extract t false = [] -> from_text self t excl = Return [].
Proof.
  intros H. rewrite extract_from_text_all; rewrite H; [reflexivity |].
  intros c [].
Qed.

(** C5. When no candidate survives, because nothing parseable was
    extracted (whatever the mandatory keys and the mode) or because the
    filter removed every candidate, [process] raises the "no valid YAML"
    ValueError; otherwise it returns the first survivor for strategy
    "first" and the last survivor for strategy "last".  What it returns
    is always one of the survivors. *)
Theorem process_raises_on_empty_else_selects
    (self : YAMLExtractor) (t : text) (excl : bool) :
  (from_text self (strip t) excl = Return [] ->
   run self t excl = Raise (value_error (NoValidYAML (mandatory_keys self))))
  /\ (extract (strip t) false = [] ->
      run self t excl = Raise (value_error (NoValidYAML (mandatory_keys self))))
  /\ (forall c cs,
         from_text self (strip t) excl = Return (c :: cs) ->
         (strategy self = "first"%string -> run self t excl = Return c)
         /\ (strategy self = "last"%string ->
             run self t excl = Return (last cs c)))
  /\ (forall c,
         run self t excl = Return c ->
         exists cs, from_text self (strip t) excl = Return cs /\ In c cs).
Proof.
  unfold process. split; [| split; [| split]].
  - intros H. now rewrite H.
  - intros H. now rewrite (extract_from_text_nothing self _ excl H).
  - intros c cs H. rewrite H. split; intros Hs; now rewrite Hs.
  - intros c. destruct (from_text self (strip t) excl) as [[| d ds] | e];
      try discriminate.
    destruct (String.eqb (strategy self) "first"); intros H;
      injection H as <-; exists (d :: ds); split; auto.
    + now left.
    + apply last_In.
Qed.

(** ** What a candidate is *)

(** C6, as the code has it.  The extracted candidates are exactly the
    mappings that [yaml.safe_load] returns for the potential segments: a
    segment that loads as a mapping is kept even when the mapping has no
    key, and a segment that loads as anything else is dropped, the
    extraction returning its list all the same. *)
Theorem candidates_are_loaded_mappings (t : text) (rm : bool) :
  (forall c,
      In c (extract t rm) <->
      exists seg,
        In seg (potential_segments t)
        /\ safe_load (if rm then unmark md_convert seg else seg)
           = Loaded (YMap c))
  /\ (forall seg v,
         safe_load seg = Loaded v -> (forall m, v <> YMap m) ->
         parse seg = None)
  /\ (forall seg d, safe_load seg = Loaded (YMap d) -> parse seg = Some d).
Proof.
  split; [| split].
  - intros c. unfold extract_yaml_segments. rewrite In_valid_segments.
    split; intros [seg [Hin H]]; exists seg; split; auto;
      now apply parse_Some.
  - intros seg v Hv Hnot. unfold parse_multiline_yaml. rewrite Hv.
    destruct v; try reflexivity. now destruct (Hnot items).
  - intros seg d Hd. now apply parse_Some.
Qed.

(** ** Markdown normalization *)

(** C7, as the code has it.  [extract_yaml_segments] normalizes every
    potential segment before the parse when its [remove_markdown]
    argument is true and none when it is false, the default.
    [YAMLExtractor] has no such setting: [extract_from_text] and
    [process] always extract without normalization, so their results do
    not depend on the Markdown converter. *)
Theorem normalization_only_by_argument
    (self : YAMLExtractor) (t : text) (excl : bool) :
  extract t true
  = valid false (map (unmark md_convert) (potential_segments t))
  /\ (forall c,
         In c (extract t false) <->
         exists seg, In seg (potential_segments t) /\ parse seg = Some c)
  /\ (forall md : text -> text,
         extract_from_text safe_load md self t excl = from_text self t excl
         /\ process safe_load md self t excl = run self t excl).
Proof.
  split; [apply valid_segments_unmark | split].
  - intros c. unfold extract_yaml_segments. apply In_valid_segments.
  - intros md.
    assert (H : forall t', extract_from_text safe_load md self t' excl
                           = from_text self t' excl).
    { intros t'. unfold extract_from_text, extract_yaml_segments.
      now rewrite valid_segments_raw. }
    split; [apply H |]. unfold process. now rewrite H.
Qed.

(** ** Filter mode *)

(** C9. In filter mode [extract_from_text] never raises: it returns the
    candidates that hold every mandatory key, in their order.  With no
    mandatory key, either mode returns the extracted list itself. *)
Theorem filter_mode_keeps_complete_candidates
    (self : YAMLExtractor) (t : text) :
  from_text self t true
  = Return (filter (has_all (mandatory_keys self)) (extract t false))
  /\ (forall c,
         In c (filter (has_all (mandatory_keys self)) (extract t false)) <->
         In c (extract t false)
         /\ forall k, In k (mandatory_keys self) -> key_in k c = true)
  /\ subsequence (filter (has_all (mandatory_keys self)) (extract t false))
                 (extract t false)
  /\ (mandatory_keys self = [] ->
      forall excl, from_text self t excl = Return (extract t false)).
Proof.
  split; [| split; [| split]].
  - unfold extract_from_text.
    destruct (mandatory_keys self) as [| k ks]; [| reflexivity].
    simpl. now rewrite filter_all.
  - intros c. rewrite filter_In, has_all_spec. tauto.
  - apply filter_subsequence.
  - intros H excl. unfold extract_from_text. now rewrite H.
Qed.

End ExtractionFacts.

(** ** Construction *)

(** C10. [YAMLExtractor(mandatory_keys, strategy)] raises a ValueError when
    the strategy is neither "first" nor "last", and every instance it
    returns has one of the two. *)
Theorem init_checks_strategy (keys : option (list string)) (s : string) :
  (s <> "first"%string -> s <> "last"%string ->
   YAMLExtractor_init keys (Some s) = Raise (value_error StrategyMessage))
  /\ (forall given self,
         YAMLExtractor_init keys given = Return self ->
         strategy self = "first"%string \/ strategy self = "last"%string).
Proof.
  split.
  - intros Hf Hl. unfold YAMLExtractor_init.
    apply String.eqb_neq in Hf, Hl. now rewrite Hf, Hl.
  - intros given self. unfold YAMLExtractor_init.
    set (s' := match given with Some s0 => s0 | None => "last"%string end).
    destruct (String.eqb s' "first") eqn:Ef; simpl.
    + intros H. injection H as <-. simpl. left. now apply String.eqb_eq.
    + destruct (String.eqb s' "last") eqn:El; simpl; [| discriminate].
      intros H. injection H as <-. simpl. right. now apply String.eqb_eq.
Qed.

(* ================================================================== *)
(** * The retry loops *)
(* ================================================================== *)

Section RetryFacts.

Lemma stop_after_attempt_budget (stop : Z) (attempt_number : nat) :
  stop_after_attempt stop attempt_number = true <->
  Z.to_nat stop - attempt_number = 0.
Proof. unfold stop_after_attempt. rewrite Z.leb_le. lia. Qed.

(** One attempt of a loop, unfolded. *)
Lemma attempts_eq {A} (r : Retrying) (body : M A) (budget n : nat) (w : World) :
  attempts r body budget n w
  = match body (snd (before r n w)) with
    | (Return a, w2) => (Return a, w2)
    | (Raise e, w2) =>
        if negb (retry r e) then (Raise e, w2)
        else match budget with
             | 0 => (Raise e, w2)
             | S budget' =>
                 attempts r body budget' (S n)
                   (snd (emit (Sleep (wait r n)) w2))
             end
    end.
Proof. destruct budget; reflexivity. Qed.

Lemma attempts_return {A} (r : Retrying) (body : M A) (budget n : nat)
    (w w2 : World) (a : A) :
  body (snd (before r n w)) = (Return a, w2) ->
  attempts r body budget n w = (Return a, w2).
Proof. intros H. now rewrite attempts_eq, H. Qed.

Lemma attempts_propagate {A} (r : Retrying) (body : M A) (budget n : nat)
    (w w2 : World) (e : exc) :
  body (snd (before r n w)) = (Raise e, w2) ->
  retry r e = false ->
  attempts r body budget n w = (Raise e, w2).
Proof. intros H Hr. now rewrite attempts_eq, H, Hr. Qed.



(** Hooks and sleeps only write to the trace. *)
Lemma emit_calls (ev : event) (w : World) :
  llm_calls (snd (emit ev w)) = llm_calls w
  /\ pp_calls (snd (emit ev w)) = pp_calls w.
Proof. split; reflexivity. Qed.

Lemma log_retry_attempt_calls (n : nat) (w : World) :
  llm_calls (snd (log_retry_attempt n w)) = llm_calls w
  /\ pp_calls (snd (log_retry_attempt n w)) = pp_calls w.
Proof. unfold log_retry_attempt. destruct (1 <? n); split; reflexivity. Qed.

Lemma log_post_process_retry_calls (n : nat) (w : World) :
  llm_calls (snd (log_post_process_retry n w)) = llm_calls w
  /\ pp_calls (snd (log_post_process_retry n w)) = pp_calls w.
Proof.
  unfold log_post_process_retry. destruct (1 <? n); split; reflexivity.
Qed.

(** ** Backoff *)



(** ** The inner whitelist *)



End RetryFacts.

(* ================================================================== *)
(** * A model that always raises *)
(* ================================================================== *)

Section Exhaustion.

Variable self : StructuredAgent.
Variable model : LLM.
Hypothesis Hllm : llm self = Some model.
Hypothesis Hraises :
  forall k, exists e, model k = Raise e /\ is_Exception e = true.

Local Abbreviation outer := (attempts_of (retry_configs self)).

Lemma llm_invoke_raises (w : World) :
  exists e,
    model (llm_calls w) = Raise e
    /\ is_Exception e = true
    /\ llm_invoke self w
       = (Raise e, {| llm_calls := S (llm_calls w); pp_calls := pp_calls w;
                      trace := trace w ++ [LLMInvoke (llm_calls w)] |}).
Proof.
  destruct (Hraises (llm_calls w)) as [e [He Hex]].
  exists e. unfold llm_invoke. rewrite Hllm, He. auto.
Qed.

(** The outer loop uses every attempt it has and raises what the last
    call of the model raised. *)
Lemma llm_attempts_exhaust (budget : nat) :
  forall n w,
  exists e w',
    attempts (llm_retryer self) (llm_invoke self) budget n w = (Raise e, w')
    /\ llm_calls w' = llm_calls w + S budget
    /\ model (llm_calls w' - 1) = Raise e
    /\ pp_calls w' = pp_calls w.
Proof.
  induction budget as [| b IH]; intros n w; rewrite attempts_eq;
    simpl before;
    destruct (log_retry_attempt_calls n w) as [Hl Hp];
    destruct (llm_invoke_raises (snd (log_retry_attempt n w)))
      as [e [He [Hex Hinv]]];
    rewrite Hinv; simpl retry; rewrite Hex; simpl negb; cbv iota.
  - eexists; eexists; split; [reflexivity |]. simpl.
    rewrite Hl, Hp. repeat split; try lia.
    rewrite Nat.sub_0_r. rewrite Hl in He. exact He.
  - match goal with
    | |- context [attempts _ _ b (S n) ?w0] =>
        destruct (IH (S n) w0) as [e' [w' [Hrun [Hc [Hm Hpp]]]]]
    end.
    exists e', w'. split; [exact Hrun |].
    simpl in Hc, Hpp. rewrite Hl in Hc. rewrite Hp in Hpp.
    split; [lia |]. split; [exact Hm | exact Hpp].
Qed.

Lemma pp_attempt_raises (w : World) :
  exists e w',
    pp_attempt self w = (Raise e, w')
    /\ llm_calls w' = llm_calls w + outer
    /\ model (llm_calls w' - 1) = Raise e
    /\ pp_calls w' = pp_calls w.
Proof.
  destruct (llm_attempts_exhaust
              (Z.to_nat (max_attempts (retry_configs self)) - 1) 1 w)
    as [e [w' [Hrun H]]].
  exists e, w'. split; [| exact H].
  unfold pp_attempt, bind, invoke_llm, retrying. simpl stop.
  now rewrite Hrun.
Qed.

(** The inner loop runs the outer loop [rounds] times: once when the
    model's exceptions are outside the whitelist, as often as it has
    attempts when they are all inside. *)
Lemma pp_attempts_exhaust (budget : nat) :
  forall n w,
  exists e w' rounds,
    attempts (pp_retryer self) (pp_attempt self) budget n w = (Raise e, w')
    /\ llm_calls w' = llm_calls w + rounds * outer
    /\ 1 <= rounds <= S budget
    /\ model (llm_calls w' - 1) = Raise e
    /\ pp_calls w' = pp_calls w
    /\ ((forall k e0, model k = Raise e0 ->
                      isinstance e0 pp_exc_types = false) -> rounds = 1)
    /\ ((forall k e0, model k = Raise e0 ->
                      isinstance e0 pp_exc_types = true) ->
        rounds = S budget).
Proof.
  remember outer as m eqn:Em.
  induction budget as [| b IH]; intros n w; rewrite attempts_eq;
    simpl before;
    destruct (log_post_process_retry_calls n w) as [Hl Hp];
    destruct (pp_attempt_raises (snd (log_post_process_retry n w)))
      as [e [w1 [Hrun [Hc [Hm Hpp]]]]];
    rewrite <- Em in Hc;
    rewrite Hrun;
    change (retry (pp_retryer self) e) with (isinstance e pp_exc_types);
    rewrite Hl in Hc; rewrite Hp in Hpp.
  - exists e, w1, 1.
    replace (if negb (isinstance e pp_exc_types)
             then (Raise e, w1) else (Raise e, w1))
      with (@Raise Candidate e, w1) by now destruct (isinstance _ _).
    split; [reflexivity |]. split; [lia |]. split; [lia |].
    split; [exact Hm |]. split; [exact Hpp |]. split; reflexivity.
  - destruct (isinstance e pp_exc_types) eqn:Ew; simpl negb; cbv iota.
    + match goal with
      | |- context [attempts _ _ b (S n) ?w0] =>
          destruct (IH (S n) w0)
            as [e' [w' [r [Hrun' [Hc' [Hr [Hm' [Hpp' [Hout Hin]]]]]]]]]
      end.
      simpl in Hc', Hpp'.
      exists e', w', (S r). split; [exact Hrun' |].
      split; [simpl; lia |]. split; [lia |]. split; [exact Hm' |].
      split; [congruence |]. split.
      * intros Hall. rewrite (Hall _ _ Hm) in Ew. discriminate.
      * intros Hall. now rewrite (Hin Hall).
    + exists e, w1, 1. split; [reflexivity |].
      split; [lia |]. split; [lia |]. split; [exact Hm |].
      split; [exact Hpp |]. split; [reflexivity |].
      intros Hall. rewrite (Hall _ _ Hm) in Ew. discriminate.
Qed.

(** C1, as the code has it.  Take an agent whose model attribute is set,
    an outer max_attempts of at least one, and a model that raises an
    Exception at every call.  One call of the agent then raises, as it
    is, what the last call of the model raised, and never reaches the
    post-processor.  The model is called max_attempts times when its
    exceptions are outside the inner whitelist; when they are all inside
    it, the inner layer runs the outer loop once per inner attempt, and
    the model is called max_attempts times the inner number of
    attempts. *)
Theorem exhaustion_reraises_last_model_error (w : World) :
  (1 <= max_attempts (retry_configs self))%Z ->
  exists e w',
    call self w = (Raise e, w')
    /\ model (llm_calls w' - 1) = Raise e
    /\ llm_calls w < llm_calls w'
    /\ pp_calls w' = pp_calls w
    /\ ((forall k e0, model k = Raise e0 ->
                      isinstance e0 pp_exc_types = false) ->
        Z.of_nat (llm_calls w' - llm_calls w)
        = max_attempts (retry_configs self))
    /\ ((forall k e0, model k = Raise e0 ->
                      isinstance e0 pp_exc_types = true) ->
        Z.of_nat (llm_calls w' - llm_calls w)
        = (max_attempts (retry_configs self)
           * Z.max 1 (max_attempts (pp_retry_configs self)))%Z).
Proof.
  intros Hmax.
  destruct (pp_attempts_exhaust
              (Z.to_nat (max_attempts (pp_retry_configs self)) - 1) 1 w)
    as [e [w1 [r [Hrun [Hc [Hr [Hm [Hpp [Hout Hin]]]]]]]]].
  assert (Hex : is_Exception e = true).
  { destruct (Hraises (llm_calls w1 - 1)) as [e' [He' Hex']]. congruence. }
  exists e, (snd (emit (LogError e) w1)).
  unfold call, retrying. simpl stop. rewrite Hrun, Hex.
  split; [reflexivity |]. simpl llm_calls. simpl pp_calls.
  assert (Ho : Z.of_nat outer = max_attempts (retry_configs self))
    by (unfold attempts_of; lia).
  split; [exact Hm |]. split; [unfold attempts_of in *; nia |].
  split; [exact Hpp |]. split.
  - intros Hall. rewrite (Hout Hall) in Hc. lia.
  - intros Hall. rewrite (Hin Hall) in Hc.
    replace (llm_calls w1 - llm_calls w)
      with (S (Z.to_nat (max_attempts (pp_retry_configs self)) - 1) * outer)
      by lia.
    rewrite Nat2Z.inj_mul, Ho. lia.
Qed.

End Exhaustion.

(* ================================================================== *)
(** * Closed instances *)
(* ================================================================== *)

(** ** Strict mode: the second candidate misses "steps", the first is
       complete. *)
Lemma strict_mode_two_blocks :
  mandatory_keys (recipe_extractor "last") <> []
  /\ extract_yaml_segments pyyaml markdown (strip two_blocks) false
     = [recipe_A; title_B]
  /\ has_all (mandatory_keys (recipe_extractor "last")) recipe_A = true
  /\ exists i c,
      nth_error (extract_yaml_segments pyyaml markdown (strip two_blocks) false) i
      = Some c
      /\ process pyyaml markdown (recipe_extractor "last") two_blocks false
         = Raise (value_error
                    (MissingMandatory (i + 1)
                       (missing_keys
                          (mandatory_keys (recipe_extractor "last")) c))).
Proof.
  split; [discriminate |]. split; [reflexivity |]. split; [reflexivity |].
  destruct (@strict_mode_names_first_incomplete pyyaml markdown
              (recipe_extractor "last") two_blocks)
    as [i [c [Hn [_ [_ [_ [_ Hrun]]]]]]].
  - simpl. discriminate.
  - exists title_B. split; vm_compute; [right; left |]; reflexivity.
  - exists i, c. split; [exact Hn | exact Hrun].
Defined.

Example strict_mode_two_blocks_message :
  process pyyaml markdown (recipe_extractor "last") two_blocks false
  = Raise (value_error (MissingMandatory 2 ["steps"%string])).
Proof. reflexivity. Qed.


(** ** Selection: prose alone raises, even with no mandatory key. *)
Lemma process_prose_raises :
  extract_yaml_segments pyyaml markdown (strip (T "some prose")) false = []
  /\ process pyyaml markdown default_extractor (T "some prose") false
     = Raise (value_error (NoValidYAML [])).
Proof.
  split; [reflexivity |].
  destruct (@process_raises_on_empty_else_selects pyyaml markdown
              default_extractor (T "some prose") false) as [_ [H _]].
  apply H. reflexivity.
Defined.

Example filter_mode_two_blocks :
  process pyyaml markdown (recipe_extractor "last") two_blocks true
  = Return recipe_A.
Proof. reflexivity. Qed.

(** ** Filter mode on the two blocks. *)
Lemma filter_mode_two_blocks_kept :
  extract_from_text pyyaml markdown (recipe_extractor "last") two_blocks true
  = Return [recipe_A]
  /\ extract_from_text pyyaml markdown default_extractor two_blocks true
     = Return [recipe_A; title_B].
Proof.
  split.
  - destruct (@filter_mode_keeps_complete_candidates pyyaml markdown
                (recipe_extractor "last") two_blocks) as [H _].
    rewrite H. reflexivity.
  - destruct (@filter_mode_keeps_complete_candidates pyyaml markdown
                default_extractor two_blocks) as [_ [_ [_ H]]].
    rewrite (H eq_refl true). reflexivity.
Defined.

(** ** Construction. *)
Lemma init_middle_raises :
  YAMLExtractor_init None (Some "middle"%string)
  = Raise (value_error StrategyMessage)
  /\ (strategy default_extractor = "first"%string
      \/ strategy default_extractor = "last"%string).
Proof.
  destruct (init_checks_strategy None "middle") as [Hbad Hgood]. split.
  - apply Hbad; discriminate.
  - apply (Hgood None). reflexivity.
Defined.

(** ** C6 as stated fails: a fenced [{}] is a candidate with no key. *)
Lemma empty_mapping_is_a_candidate :
  extract_yaml_segments pyyaml markdown empty_mapping_block false = [ [] ]
  /\ ~ (forall c,
           In c (extract_yaml_segments pyyaml markdown empty_mapping_block false)
           -> c <> []).
Proof.
  split; [reflexivity |].
  intros H. apply (H []); [left |]; reflexivity.
Qed.

Lemma empty_mapping_is_loaded :
  In [] (extract_yaml_segments pyyaml markdown empty_mapping_block false)
  /\ parse_multiline_yaml pyyaml (T "- a: 1") = None
  /\ parse_multiline_yaml pyyaml (T "{}") = Some [].
Proof.
  destruct (@candidates_are_loaded_mappings pyyaml markdown
              empty_mapping_block false) as [Hin [Hdrop Hkeep]].
  split; [| split].
  - apply Hin. exists (T "{}"). split; [left |]; reflexivity.
  - apply (Hdrop _ (YSeq [YMap [(KStr "a", YInt 1)]])); [reflexivity |].
    discriminate.
  - apply Hkeep. reflexivity.
Defined.

(** ** C7 as stated fails: the extractor has no normalization setting, and
       a segment that parses only once normalized is lost to it. *)
Lemma extractor_never_normalizes :
  spec_candidates pyyaml markdown
    {| cfg_mandatory_keys := []; cfg_strategy := "last";
       cfg_normalize_markdown := true |} bold_key
  = [title_A]
  /\ extract_from_text pyyaml markdown default_extractor bold_key false
     = Return []
  /\ process pyyaml markdown default_extractor bold_key false
     = Raise (value_error (NoValidYAML []))
  /\ extract_from_text pyyaml markdown default_extractor bold_key false
     <> Return (spec_candidates pyyaml markdown
                  {| cfg_mandatory_keys := []; cfg_strategy := "last";
                     cfg_normalize_markdown := true |} bold_key).
Proof.
  split; [reflexivity |]. split; [reflexivity |]. split; [reflexivity |].
  vm_compute. discriminate.
Qed.

Lemma normalization_by_argument_bold_key :
  extract_yaml_segments pyyaml markdown bold_key true = [title_A]
  /\ extract_yaml_segments pyyaml markdown bold_key false = []
  /\ process pyyaml (fun t => t) default_extractor bold_key false
     = process pyyaml markdown default_extractor bold_key false.
Proof.
  destruct (@normalization_only_by_argument pyyaml markdown
              default_extractor bold_key false) as [Htrue [_ Hmd]].
  split; [| split].
  - rewrite Htrue. reflexivity.
  - reflexivity.
  - apply Hmd.
Defined.



(** ** C1 as stated fails: a model that always raises RuntimeError is called
       nine times by a default agent, whose outer max_attempts is three. *)
Lemma whitelisted_model_error_repeats_outer_loop :
  (forall k, exists e, always_raises RuntimeError k = Raise e)
  /\ max_attempts (retry_configs (default_agent (always_raises RuntimeError)))
     = 3%Z
  /\ llm_calls (snd (call (default_agent (always_raises RuntimeError)) world0))
     = 9
  /\ Z.of_nat
       (llm_calls (snd (call (default_agent (always_raises RuntimeError)) world0)))
     <> max_attempts (retry_configs (default_agent (always_raises RuntimeError))).
Proof.
  split; [intros k; eexists; reflexivity |].
  split; [reflexivity |]. split; [reflexivity |].
  vm_compute. discriminate.
Qed.

Lemma exhaustion_default_agent :
  (1 <= max_attempts (retry_configs (default_agent (always_raises OtherException))))%Z
  /\ exists e w',
      call (default_agent (always_raises OtherException)) world0 = (Raise e, w')
      /\ always_raises OtherException (llm_calls w' - 1) = Raise e
      /\ Z.of_nat (llm_calls w' - llm_calls world0)
         = max_attempts
             (retry_configs (default_agent (always_raises OtherException))).
Proof.
  split; [vm_compute; discriminate |].
  destruct (@exhaustion_reraises_last_model_error
              (default_agent (always_raises OtherException))
              (always_raises OtherException) eq_refl
              (fun k => ex_intro _ _ (conj eq_refl eq_refl)) world0)
    as [e [w' [Hcall [Hlast [_ [_ [Hout _]]]]]]].
  - vm_compute. discriminate.
  - exists e, w'. split; [exact Hcall |]. split; [exact Hlast |].
    apply Hout. intros k e0 H. injection H as <-. reflexivity.
Defined.

Example exhaustion_default_agent_run :
  call (default_agent (always_raises OtherException)) world0
  = (Raise {| exc_cls := OtherException; exc_msg := External 2 |},
     {| llm_calls := 3; pp_calls := 0;
        trace := [ LLMInvoke 0; Sleep 1; WarnLLMRetry 2;
                   LLMInvoke 1; Sleep (2 # 10); WarnLLMRetry 3;
                   LLMInvoke 2;
                   LogError {| exc_cls := OtherException;
                               exc_msg := External 2 |} ] |}).
Proof. reflexivity. Qed.

(** An agent built with a model of the caller's never calls it. *)
Example supplied_model_is_not_called :
  call (StructuredAgent_init (Some (always_answers (T "title: A")))
          (always_answers (T "title: A")) None None None) world0
  = (Raise {| exc_cls := AttributeError; exc_msg := NoAttribute "llm" |},
     {| llm_calls := 0; pp_calls := 0;
        trace := [ Sleep 1; WarnLLMRetry 2; Sleep (2 # 10); WarnLLMRetry 3;
                   LogError {| exc_cls := AttributeError;
                               exc_msg := NoAttribute "llm" |} ] |}).
Proof. reflexivity. Qed.


Example inner_layer_propagates_other_exception :
  call (StructuredAgent_init None (always_answers (T "title: A"))
          (Some (fun k _ => Raise {| exc_cls := OtherException;
                                     exc_msg := External k |})) None None)
       world0
  = (Raise {| exc_cls := OtherException; exc_msg := External 0 |},
     {| llm_calls := 1; pp_calls := 1;
        trace := [ LLMInvoke 0; PostProcess 0;
                   LogError {| exc_cls := OtherException;
                               exc_msg := External 0 |} ] |}).
Proof. reflexivity. Qed.

Example yaml_agent_answers :
  fst (call (yaml_agent (always_answers fenced_then_plain)) world0)
  = Return title_A.
Proof. reflexivity. Qed.


(* ================================================================== *)
(** * More on the scan *)
(* ================================================================== *)

Section ScanFacts.

Lemma lstrip_split (t : text) :
  exists p, t = p ++ lstrip t /\ forallb is_space p = true.
Proof.
  induction t as [| c t [p [Ht Hp]]]; [exists []; auto |].
  simpl. destruct (is_space c) eqn:E.
  - exists (c :: p). simpl. rewrite E, Hp. split; [now f_equal | reflexivity].
  - exists []. auto.
Qed.

Lemma lstrip_head (t : text) :
  match lstrip t with [] => True | c :: _ => is_space c = false end.
Proof.
  induction t as [| c t IH]; simpl; [exact I |].
  destruct (is_space c) eqn:E; [exact IH | exact E].
Qed.

Lemma lstrip_fixed (t : text) :
  match t with [] => True | c :: _ => is_space c = false end -> lstrip t = t.
Proof. destruct t as [| c t]; simpl; [reflexivity | now intros ->]. Qed.

Lemma forallb_rev {A} (f : A -> bool) (l : list A) :
  forallb f (rev l) = forallb f l.
Proof.
  induction l as [| a l IH]; simpl; [reflexivity |].
  rewrite forallb_app, IH. simpl. rewrite andb_true_r. apply andb_comm.
Qed.

(** [strip] cuts a run of whitespace at each end and leaves a text
    that neither starts nor ends with whitespace. *)
Lemma strip_split (t : text) :
  exists p q,
    t = p ++ strip t ++ q
    /\ forallb is_space p = true /\ forallb is_space q = true
    /\ is_stripped (strip t) = true.
Proof.
  unfold strip, rstrip.
  destruct (lstrip_split t) as [p [Ht Hp]].
  destruct (lstrip_split (rev (lstrip t))) as [q' [Hr Hq']].
  exists p, (rev q'). split; [| split; [exact Hp | split]].
  - rewrite Ht at 1. f_equal.
    rewrite <- rev_app_distr, <- Hr. now rewrite rev_involutive.
  - now rewrite forallb_rev.
  - assert (Hh := lstrip_head (rev (lstrip t))).
    assert (Hl := lstrip_head t).
    remember (lstrip t) as u eqn:Eu.
    remember (lstrip (rev u)) as v0 eqn:Ev.
    destruct v0 as [| c v]; [reflexivity |].
    (* [rev (c :: v)] starts with the last character of [c :: v], which is
       the first of [u], and ends with [c] *)
    assert (Hu : u = rev (c :: v) ++ rev q').
    { rewrite <- rev_app_distr, <- Hr. now rewrite rev_involutive. }
    unfold is_stripped.
    destruct (rev (c :: v)) as [| d r] eqn:Erev.
    + apply (f_equal (@List.length ascii)) in Erev.
      rewrite length_rev in Erev. discriminate.
    + rewrite Hu in Hl. simpl in Hl. rewrite Hl. simpl.
      assert (Hlast : last r d = c).
      { assert (H : last (d :: r) d = c)
          by (rewrite <- Erev; simpl; apply last_last).
        destruct r; simpl in *; auto. }
      now rewrite Hlast, Hh.
Qed.

Lemma forallb_space_nil (p t : text) :
  forallb is_space p = true ->
  match t with [] => True | c :: _ => is_space c = false end ->
  lstrip (p ++ t) = t.
Proof.
  induction p as [| c p IH]; simpl; intros Hp Ht; [now apply lstrip_fixed |].
  apply andb_prop in Hp as [Hc Hp]. rewrite Hc. auto.
Qed.

Lemma fenced_segments_In (ms : list Match) (seg : text) :
  In seg (fenced_segments ms) <->
  exists m, In m ms /\ seg = strip (m_group1 m) /\ seg <> [].
Proof.
  induction ms as [| m ms IH]; simpl.
  - split; [tauto | intros [? [[] _]]].
  - destruct (strip (m_group1 m)) as [| c r] eqn:E; simpl.
    + rewrite IH. split.
      * intros [m' [Hin H]]; exists m'; tauto.
      * intros [m' [[<- | Hin] [H1 H2]]]; [congruence | eauto].
    + rewrite IH. split.
      * intros [<- | [m' [Hin H]]].
        -- exists m. rewrite E. repeat split; auto. discriminate.
        -- exists m'; tauto.
      * intros [m' [[<- | Hin] [H1 H2]]]; [left; congruence | right; eauto].
Qed.

Lemma standalone_segments_In (blocks : list text) (seg : text) :
  In seg (standalone_segments blocks) <->
  exists b, In b blocks /\ seg = strip b /\ seg <> []
            /\ contains_colon seg = true.
Proof.
  induction blocks as [| b blocks IH]; simpl.
  - split; [tauto | intros [? [[] _]]].
  - destruct (nonempty (strip b) && contains_colon (strip b)) eqn:E.
    + apply andb_prop in E as [E1 E2]. simpl. rewrite IH. split.
      * intros [<- | [b' [Hin H]]].
        -- exists b. repeat split; auto. intros H. rewrite H in E1. discriminate.
        -- exists b'; tauto.
      * intros [b' [[<- | Hin] [H1 H2]]]; [left; congruence | right; eauto].
    + rewrite IH. split.
      * intros [b' [Hin H]]; exists b'; tauto.
      * intros [b' [[<- | Hin] [H1 [H2 H3]]]]; [| eauto].
        subst seg. destruct (strip b); [congruence |].
        rewrite H3 in E. discriminate.
Qed.

Lemma is_stripped_fixed (t : text) : is_stripped t = true -> strip t = t.
Proof.
  destruct t as [| c r]; [reflexivity |].
  unfold is_stripped. intros H. apply andb_prop in H as [Hc Hl].
  apply negb_true_iff in Hc, Hl.
  unfold strip, rstrip. simpl lstrip at 2. rewrite Hc.
  rewrite lstrip_fixed; [apply rev_involutive |].
  destruct (rev (c :: r)) as [| d r'] eqn:E.
  - exact I.
  - assert (H : last (c :: r) c = d).
    { rewrite <- (rev_involutive (c :: r)), E. simpl. apply last_last. }
    rewrite <- H, <- Hl. destruct r; reflexivity.
Qed.

(** X1. Every raw segment that [extract_yaml_segments] hands to the parser
    is non-empty and has no whitespace at either end, so that stripping
    it again changes nothing; a standalone segment contains a colon. *)
Theorem potential_segments_are_stripped (t seg : text) :
  In seg (potential_segments t) ->
  seg <> [] /\ is_stripped seg = true /\ strip seg = seg
  /\ (In seg (standalone_segments (re_split (remove_matches t (finditer t)))) ->
      contains_colon seg = true).
Proof.
  intros Hin.
  assert (H : seg <> [] /\ is_stripped seg = true).
  { unfold potential_segments in Hin. apply in_app_or in Hin as [Hf | Hs].
    - apply fenced_segments_In in Hf as [m [_ [-> Hne]]]. split; [exact Hne |].
      now destruct (strip_split (m_group1 m)) as [_ [_ [_ [_ [_ H]]]]].
    - apply standalone_segments_In in Hs as [b [_ [-> [Hne _]]]].
      split; [exact Hne |].
      now destruct (strip_split b) as [_ [_ [_ [_ [_ H]]]]]. }
  destruct H as [Hne Hs]. split; [exact Hne |]. split; [exact Hs |].
  split; [now apply is_stripped_fixed |].
  intros Hst. now apply standalone_segments_In in Hst as [b [_ [_ [_ H]]]].
Qed.

(** ** What a match is *)

Lemma starts_with_spec (p t : text) :
  starts_with p t = true <-> exists r, t = p ++ r.
Proof.
  revert t. induction p as [| a p IH]; intros t; simpl.
  - split; [intros _; now exists t | reflexivity].
  - destruct t as [| b t].
    + split; [discriminate | intros [r H]; discriminate].
    + rewrite andb_true_iff, Ascii.eqb_eq, IH. split.
      * intros [-> [r ->]]. now exists r.
      * intros [r H]. injection H as -> ->. split; [reflexivity | now exists r].
Qed.

Lemma starts_with_firstn (p t : text) (k : nat) :
  starts_with p (firstn k t) = true -> starts_with p t = true.
Proof.
  rewrite !starts_with_spec. intros [r H].
  exists (r ++ skipn k t). rewrite app_assoc, <- H. symmetry. apply firstn_skipn.
Qed.

Lemma find_close_sound (t : text) :
  forall k,
    find_close t = Some k ->
    (exists r, t = firstn k t ++ closing ++ r)
    /\ List.length (firstn k t) = k
    /\ find_close (firstn k t) = None.
Proof.
  induction t as [| c t IH]; intros k.
  - simpl. discriminate.
  - unfold find_close; fold find_close.
    destruct (starts_with closing (c :: t)) eqn:E.
    + intros H. injection H as <-. split; [| split; reflexivity].
      now apply starts_with_spec in E.
    + destruct (find_close t) as [k' |] eqn:Ek; simpl; [| discriminate].
      intros H. injection H as <-.
      destruct (IH k' eq_refl) as [[r Hr] [Hlen Hnone]].
      split; [| split].
      * exists r. change (c :: t = c :: (firstn k' t ++ closing ++ r)).
        f_equal. exact Hr.
      * simpl. now rewrite Hlen.
      * simpl firstn. unfold find_close; fold find_close.
        destruct (starts_with closing (c :: firstn k' t)) eqn:E'.
        -- apply (starts_with_firstn closing (c :: t) (S k')) in E'. congruence.
        -- now rewrite Hnone.
Qed.

Lemma header_len_sound (t : text) (h : nat) :
  header_len t = Some h ->
  exists hdr r, In hdr headers /\ t = hdr ++ r /\ List.length hdr = h.
Proof.
  unfold header_len.
  destruct (starts_with (fence ++ T "yaml" ++ [nl]) t) eqn:E1; cbn [orb].
  - intros H. injection H as <-. apply starts_with_spec in E1 as [r Hr].
    exists (fence ++ T "yaml" ++ [nl]), r.
    split; [left; reflexivity | split; [exact Hr | reflexivity]].
  - destruct (starts_with (fence ++ T "YAML" ++ [nl]) t) eqn:E2.
    + intros H. injection H as <-. apply starts_with_spec in E2 as [r Hr].
      exists (fence ++ T "YAML" ++ [nl]), r.
      split; [right; left; reflexivity | split; [exact Hr | reflexivity]].
    + destruct (starts_with (fence ++ [nl]) t) eqn:E3; [| discriminate].
      intros H. injection H as <-. apply starts_with_spec in E3 as [r Hr].
      exists (fence ++ [nl]), r.
      split; [right; right; left; reflexivity | split; [exact Hr | reflexivity]].
Qed.

Lemma skipn_app_length {A} (a b : list A) : skipn (List.length a) (a ++ b) = b.
Proof. induction a; simpl; auto. Qed.

Lemma firstn_app_length {A} (a b : list A) : firstn (List.length a) (a ++ b) = a.
Proof. induction a; simpl; [now destruct b | now f_equal]. Qed.

Lemma match_at_sound (t : text) (len : nat) (body : text) :
  match_at t = Some (len, body) ->
  exists hdr r,
    In hdr headers
    /\ t = hdr ++ body ++ closing ++ r
    /\ len = List.length (hdr ++ body ++ closing)
    /\ find_close body = None.
Proof.
  unfold match_at. destruct (header_len t) as [h |] eqn:Eh; [| discriminate].
  apply header_len_sound in Eh as [hdr [rest [Hin [-> <-]]]].
  rewrite skipn_app_length.
  destruct (find_close rest) as [k |] eqn:Ek; [| discriminate].
  intros H. injection H as <- <-.
  destruct (find_close_sound rest Ek) as [[r Hr] [Hlen Hnone]].
  exists hdr, r. split; [exact Hin |]. split; [now rewrite <- Hr |].
  split; [| exact Hnone].
  rewrite !length_app, Hlen. simpl. lia.
Qed.

Lemma finditer_from_In (t : text) :
  forall pos skip m,
    In m (finditer_from t pos skip) ->
    exists off,
      m_start m = pos + off
      /\ match_at (skipn off t)
         = Some (m_end m - m_start m, m_group1 m)
      /\ m_start m <= m_end m.
Proof.
  induction t as [| c t IH]; intros pos skip m; simpl; [tauto |].
  assert (Hrec : forall k, In m (finditer_from t (S pos) k) ->
                 exists off, m_start m = pos + off
                   /\ match_at (skipn off (c :: t))
                      = Some (m_end m - m_start m, m_group1 m)
                   /\ m_start m <= m_end m).
  { intros k Hin. destruct (IH _ _ _ Hin) as [off [Hs [Hm Hle]]].
    exists (S off). split; [lia | split; [exact Hm | exact Hle]]. }
  destruct skip as [| k]; [| apply Hrec].
  destruct (match_at (c :: t)) as [[len body] |] eqn:E; [| apply Hrec].
  intros [<- | Hin]; [| eapply Hrec; eassumption].
  exists 0. simpl. rewrite E. split; [lia |]. split; [| lia].
  now replace (pos + len - pos) with len by lia.
Qed.

(** X2. A fenced match lies inside the text; the text between its ends
    is one of the three headers, then group 1, then a newline and a
    fence; and group 1 holds no newline followed by a fence. *)
Theorem fenced_match_shape (t : text) (m : Match) :
  In m (finditer t) ->
  m_start m < m_end m <= List.length t
  /\ (exists hdr,
         In hdr headers
         /\ firstn (m_end m - m_start m) (skipn (m_start m) t)
            = hdr ++ m_group1 m ++ closing)
  /\ find_close (m_group1 m) = None.
Proof.
  intros Hin. unfold finditer in Hin.
  destruct (finditer_from_bounds _ _ _ _ Hin) as [_ Hlt].
  destruct (finditer_from_In _ _ _ _ Hin) as [off [Hs [Hm _]]].
  simpl in Hs. subst off.
  apply match_at_sound in Hm as [hdr [r [Hh [Ht [Hlen Hnone]]]]].
  split; [split; [exact Hlt |] | split; [| exact Hnone]].
  - apply (f_equal (@List.length ascii)) in Ht.
    rewrite length_skipn in Ht.
    rewrite !app_assoc, length_app, <- !app_assoc, <- Hlen in Ht. lia.
  - exists hdr. split; [exact Hh |].
    rewrite Ht, Hlen, !app_assoc, firstn_app_length. reflexivity.
Qed.

(** ** What the removal leaves *)

Lemma match_at_within (t : text) (len : nat) (body : text) :
  match_at t = Some (len, body) -> len <= List.length t.
Proof.
  intros H. apply match_at_sound in H as [hdr [r [_ [-> [-> _]]]]].
  rewrite !app_assoc, (length_app _ r). lia.
Qed.

(** Cutting the matches out last to first leaves what the one-pass scan
    keeps. *)
Lemma remove_matches_outside (t : text) :
  forall pos skip pre,
    List.length pre = pos ->
    fold_left cut (rev (finditer_from t pos skip)) (pre ++ t)
    = pre ++ firstn skip t ++ outside_from t skip.
Proof.
  induction t as [| c t IH]; intros pos skip pre Hpre.
  - simpl. now rewrite firstn_nil.
  - assert (Hstep : forall k,
               fold_left cut (rev (finditer_from t (S pos) k)) (pre ++ c :: t)
               = pre ++ c :: firstn k t ++ outside_from t k).
    { intros k.
      replace (pre ++ c :: t) with ((pre ++ [c]) ++ t)
        by now rewrite <- app_assoc.
      rewrite (IH (S pos) k (pre ++ [c]))
        by (rewrite length_app; simpl; lia).
      now rewrite <- app_assoc. }
    simpl finditer_from. simpl outside_from.
    destruct skip as [| k]; [| apply Hstep].
    destruct (match_at (c :: t)) as [[len body] |] eqn:E; [| apply (Hstep 0)].
    assert (Hlen := match_at_len _ E).
    assert (Hin := match_at_within _ E). simpl in Hin.
    simpl rev. rewrite fold_left_app, Hstep. simpl fold_left.
    unfold cut. simpl m_start. simpl m_end.
    rewrite <- Hpre, firstn_app_length. f_equal.
    replace (pre ++ c :: firstn (len - 1) t ++ outside_from t (len - 1))
      with ((pre ++ c :: firstn (len - 1) t) ++ outside_from t (len - 1))
      by now rewrite <- app_assoc.
    replace (List.length pre + len)
      with (List.length (pre ++ c :: firstn (len - 1) t)).
    + apply skipn_app_length.
    + rewrite length_app. simpl. rewrite length_firstn. lia.
Qed.

Lemma covered_before (ms : list Match) (i : nat) :
  (forall m, In m ms -> i < m_start m) -> covered ms i = false.
Proof.
  intros H. unfold covered.
  destruct (existsb _ ms) eqn:E; [| reflexivity].
  apply existsb_exists in E as [m [Hin Hm]].
  apply andb_prop in Hm as [Hs _]. apply Nat.leb_le in Hs.
  specialize (H m Hin). lia.
Qed.

Lemma outside_uncovered (t : text) :
  forall pos skip,
    map snd
      (filter (fun p => negb (covered (finditer_from t pos skip) (fst p))
                        && (pos + skip <=? fst p))
              (combine (seq pos (List.length t)) t))
    = outside_from t skip.
Proof.
  induction t as [| c t IH]; intros pos skip; [reflexivity |].
  assert (Hidx : forall p, In p (combine (seq (S pos) (List.length t)) t) ->
                            S pos <= fst p).
  { intros [i d] Hin. apply in_combine_l in Hin. apply in_seq in Hin.
    simpl. lia. }
  cbn [List.length seq combine filter fst].
  simpl finditer_from. simpl outside_from.
  destruct skip as [| k].
  - destruct (match_at (c :: t)) as [[len body] |] eqn:E.
    + assert (Hlen := match_at_len _ E).
      unfold covered at 1. cbn [existsb m_start m_end].
      replace (pos <=? pos) with true by (symmetry; now apply Nat.leb_le).
      replace (pos <? pos + len) with true
        by (symmetry; apply Nat.ltb_lt; lia).
      cbn [andb orb negb]. rewrite <- (IH (S pos) (len - 1)). f_equal.
      apply filter_ext_in. intros p Hin. apply Hidx in Hin.
      unfold covered. cbn [existsb m_start m_end].
      destruct (existsb _ (finditer_from t (S pos) (len - 1)));
        destruct (Nat.leb_spec pos (fst p));
        destruct (Nat.ltb_spec (fst p) (pos + len));
        destruct (Nat.leb_spec (pos + 0) (fst p));
        destruct (Nat.leb_spec (S pos + (len - 1)) (fst p));
        simpl; try reflexivity; lia.
    + rewrite covered_before
        by (intros m Hm; apply finditer_from_bounds in Hm; lia).
      replace (pos + 0 <=? pos) with true
        by (symmetry; apply Nat.leb_le; lia).
      cbn [andb negb map snd]. f_equal.
      rewrite <- (IH (S pos) 0). f_equal.
      apply filter_ext_in. intros p Hin. apply Hidx in Hin.
      destruct (Nat.leb_spec (pos + 0) (fst p));
        destruct (Nat.leb_spec (S pos + 0) (fst p));
        try reflexivity; lia.
  - replace (pos + S k <=? pos) with false
      by (symmetry; apply Nat.leb_gt; lia).
    rewrite andb_false_r. rewrite <- (IH (S pos) k). f_equal.
    apply filter_ext_in. intros p Hin.
    now replace (pos + S k) with (S pos + k) by lia.
Qed.

(** X3. The text that is split into standalone blocks is the text without
    the fenced matches: exactly the characters that lie in no match, in
    their order.  A fenced region is never scanned a second time. *)
Theorem fenced_regions_are_cut_out (t : text) :
  remove_matches t (finditer t) = uncovered t (finditer t).
Proof.
  unfold remove_matches, finditer, uncovered.
  change (fold_left cut (rev (finditer_from t 0 0)) t)
    with (fold_left cut (rev (finditer_from t 0 0)) ([] ++ t)).
  rewrite (@remove_matches_outside t 0 0 [] eq_refl).
  cbn [firstn app].
  rewrite <- (outside_uncovered t 0 0). f_equal.
  apply filter_ext. intros p. simpl. now rewrite andb_true_r.
Qed.

End ScanFacts.

(* ================================================================== *)
(** * What [process] returns and raises *)
(* ================================================================== *)

Section SelectionFacts.

Variable safe_load : text -> load_result.
Variable md_convert : text -> text.

Local Abbreviation extract := (extract_yaml_segments safe_load md_convert).
Local Abbreviation from_text := (extract_from_text safe_load md_convert).
Local Abbreviation run := (process safe_load md_convert).

Lemma strict_check_Some (keys : list string) (cs : list Candidate) :
  forall i e,
    strict_check keys i cs = Some e ->
    exists j c,
      nth_error cs j = Some c
      /\ missing_keys keys c <> []
      /\ e = value_error (MissingMandatory (i + j + 1) (missing_keys keys c)).
Proof.
  induction cs as [| c cs IH]; intros i e; simpl; [discriminate |].
  destruct (missing_keys keys c) as [| k ks] eqn:E; simpl.
  - intros H. destruct (IH _ _ H) as [j [c' [Hn [Hm He]]]].
    exists (S j), c'. split; [exact Hn |]. split; [exact Hm |].
    rewrite He. now replace (S i + j + 1) with (i + S j + 1) by lia.
  - intros H. injection H as <-. exists 0, c. split; [reflexivity |].
    rewrite E. split; [discriminate |]. now rewrite Nat.add_0_r.
Qed.

Lemma extract_from_text_complete (self : YAMLExtractor) (t : text)
    (excl : bool) (cs : list Candidate) :
  from_text self t excl = Return cs ->
  forall c, In c cs ->
            has_all (mandatory_keys self) c = true /\ In c (extract t false).
Proof.
  unfold extract_from_text.
  destruct (mandatory_keys self) as [| k ks] eqn:Ek; simpl.
  - intros H. injection H as <-. auto.
  - destruct excl.
    + intros H. injection H as <-. intros c Hc.
      apply filter_In in Hc. tauto.
    + destruct (strict_check (k :: ks) 0 (extract t false)) eqn:Es;
        [discriminate |].
      intros H. injection H as <-. intros c Hc. split; [| exact Hc].
      apply (proj1 (strict_check_None _ _ 0) Es c Hc).
Qed.

(** X4. Whatever [process] returns is one of the extracted candidates and
    holds every mandatory key, in strict mode and in filter mode. *)
Theorem process_returns_complete_candidate
    (self : YAMLExtractor) (t : text) (excl : bool) (c : Candidate) :
  run self t excl = Return c ->
  In c (extract (strip t) false)
  /\ forall k, In k (mandatory_keys self) -> key_in k c = true.
Proof.
  unfold process.
  destruct (from_text self (strip t) excl) as [[| d ds] | e] eqn:Hcs;
    try discriminate.
  intros H.
  assert (Hin : In c (d :: ds)).
  { destruct (String.eqb (strategy self) "first"); injection H as <-;
      [now left | apply last_In]. }
  destruct (extract_from_text_complete _ _ _ Hcs c Hin) as [Hall Hex].
  split; [exact Hex |]. now apply has_all_spec.
Qed.

(** X5. [process] raises nothing but ValueError: the "no valid YAML" one,
    or, in strict mode with mandatory keys only, the one that numbers a
    candidate missing keys.  Filter mode never reports missing keys.
    Used as the post-processor of an agent, each of its failures is
    therefore retried by the inner layer. *)
Theorem process_raises_value_errors_only
    (self : YAMLExtractor) (t : text) (excl : bool) (e : exc) :
  run self t excl = Raise e ->
  exc_cls e = ValueError
  /\ (exc_msg e = NoValidYAML (mandatory_keys self)
      \/ (excl = false /\ mandatory_keys self <> []
          /\ exists i c,
              nth_error (extract (strip t) false) i = Some c
              /\ missing_keys (mandatory_keys self) c <> []
              /\ exc_msg e
                 = MissingMandatory (i + 1)
                     (missing_keys (mandatory_keys self) c)))
  /\ forall agent : StructuredAgent, retry (pp_retryer agent) e = true.
Proof.
  intros H.
  assert (Hshape :
            e = value_error (NoValidYAML (mandatory_keys self))
            \/ (excl = false /\ mandatory_keys self <> []
                /\ exists i c,
                    nth_error (extract (strip t) false) i = Some c
                    /\ missing_keys (mandatory_keys self) c <> []
                    /\ e = value_error
                             (MissingMandatory (i + 1)
                                (missing_keys (mandatory_keys self) c)))).
  { unfold process in H.
    destruct (from_text self (strip t) excl) as [[| d ds] | e'] eqn:Hcs.
    - injection H as <-. now left.
    - destruct (String.eqb (strategy self) "first"); discriminate.
    - injection H as ->. right. unfold extract_from_text in Hcs.
      destruct (mandatory_keys self) as [| k ks] eqn:Ek; [discriminate |].
      simpl in Hcs. destruct excl; [discriminate |].
      split; [reflexivity |]. split; [discriminate |].
      destruct (strict_check (k :: ks) 0 (extract (strip t) false)) eqn:Es;
        [| discriminate].
      injection Hcs as ->.
      destruct (strict_check_Some _ _ _ Es) as [j [c [Hn [Hm He]]]].
      exists j, c. auto. }
  assert (Hcls : exc_cls e = ValueError).
  { destruct Hshape as [-> | [_ [_ [i [c [_ [_ ->]]]]]]]; reflexivity. }
  split; [exact Hcls |]. split.
  - destruct Hshape as [-> | [He [Hk [i [c [Hn [Hm ->]]]]]]]; [now left |].
    right. split; [exact He |]. split; [exact Hk |]. exists i, c. auto.
  - intros agent. simpl. unfold isinstance. now rewrite Hcls.
Qed.

End SelectionFacts.


(* ================================================================== *)
(** * More on the agent *)
(* ================================================================== *)

Section AgentFacts.


(** ** An agent whose model attribute was never set *)

Lemma sleeps_app (a b : list event) : sleeps (a ++ b) = sleeps a + sleeps b.
Proof. unfold sleeps. now rewrite filter_app, length_app. Qed.

Lemma log_retry_attempt_sleeps (n : nat) (w : World) :
  sleeps (trace (snd (log_retry_attempt n w))) = sleeps (trace w).
Proof.
  unfold log_retry_attempt. destruct (1 <? n); [| reflexivity].
  simpl. rewrite sleeps_app. change (sleeps [WarnLLMRetry n]) with 0. lia.
Qed.

Lemma log_post_process_retry_sleeps (n : nat) (w : World) :
  sleeps (trace (snd (log_post_process_retry n w))) = sleeps (trace w).
Proof.
  unfold log_post_process_retry. destruct (1 <? n); [| reflexivity].
  simpl. rewrite sleeps_app. change (sleeps [WarnPPRetry n]) with 0. lia.
Qed.

Lemma unset_llm_attempts (self : StructuredAgent) (budget : nat) :
  llm self = None ->
  forall n w,
  exists w',
    attempts (llm_retryer self) (llm_invoke self) budget n w = (Raise no_llm, w')
    /\ llm_calls w' = llm_calls w /\ pp_calls w' = pp_calls w
    /\ sleeps (trace w') = sleeps (trace w) + budget.
Proof.
  intros Hllm. induction budget as [| b IH]; intros n w; rewrite attempts_eq;
    simpl before; unfold llm_invoke at 1; rewrite Hllm; simpl retry;
    cbv beta iota.
  - exists (snd (log_retry_attempt n w)). split; [reflexivity |].
    destruct (log_retry_attempt_calls n w) as [Hl Hp].
    split; [exact Hl |]. split; [exact Hp |].
    rewrite log_retry_attempt_sleeps. lia.
  - match goal with
    | |- context [attempts _ _ b (S n) ?w0] =>
        destruct (IH (S n) w0) as [w' [Hrun [Hl [Hp Hs]]]]
    end.
    exists w'. split; [exact Hrun |].
    destruct (log_retry_attempt_calls n w) as [Hl0 Hp0].
    cbn [llm_calls pp_calls trace emit snd] in Hl, Hp, Hs.
    rewrite sleeps_app, log_retry_attempt_sleeps in Hs.
    change (sleeps [Sleep (wait (llm_retryer self) n)]) with 1 in Hs.
    split; [congruence |]. split; [congruence |]. lia.
Qed.

(** X7. An agent built with a model of the caller's never calls it:
    [__init__] leaves the attribute unset, so every call of the agent
    raises AttributeError after sleeping through the outer backoff,
    without one call of the model or of the post-processor. *)
Theorem supplied_model_never_called
    (model init_chat_model : LLM) (pp : option PostProcessor)
    (rc prc : option RetryOverrides) (w : World) :
  let self := StructuredAgent_init (Some model) init_chat_model pp rc prc in
  exists w',
    call self w = (Raise no_llm, w')
    /\ llm_calls w' = llm_calls w
    /\ pp_calls w' = pp_calls w
    /\ sleeps (trace w') = sleeps (trace w) + (attempts_of (retry_configs self) - 1).
Proof.
  intros self.
  destruct (@unset_llm_attempts self
              (Z.to_nat (max_attempts (retry_configs self)) - 1) eq_refl 1 w)
    as [w1 [Hrun [Hl [Hp Hs]]]].
  assert (Hatt : pp_attempt self (snd (before (pp_retryer self) 1 w))
                 = (Raise no_llm, w1)).
  { change (pp_attempt self w = (Raise no_llm, w1)).
    unfold pp_attempt, bind, invoke_llm, retrying.
    change (stop (llm_retryer self)) with (max_attempts (retry_configs self)).
    now rewrite Hrun. }
  exists (snd (emit (LogError no_llm) w1)).
  unfold call, retrying. rewrite (attempts_propagate _ _ _ _ _ Hatt eq_refl).
  simpl is_Exception. cbv iota. split; [reflexivity |].
  cbn [llm_calls pp_calls trace emit snd]. rewrite sleeps_app.
  change (sleeps [LogError no_llm]) with 0. unfold attempts_of.
  split; [exact Hl |]. split; [exact Hp |]. lia.
Qed.

(** ** How many calls one call of the agent can make *)

Lemma grows_by_trans (la pa lb pb : nat) (w1 w2 w3 : World) :
  grows_by la pa w1 w2 -> grows_by lb pb w2 w3 ->
  grows_by (la + lb) (pa + pb) w1 w3.
Proof. unfold grows_by. lia. Qed.

Lemma grows_by_weaken (la pa lb pb : nat) (w w' : World) :
  grows_by la pa w w' -> la <= lb -> pa <= pb -> grows_by lb pb w w'.
Proof. unfold grows_by. lia. Qed.

Lemma emit_grows (ev : event) (w : World) : grows_by 0 0 w (snd (emit ev w)).
Proof. unfold grows_by. simpl. lia. Qed.

Lemma attempts_grows {A} (r : Retrying) (body : M A) (la pa : nat) :
  (forall n w, grows_by 0 0 w (snd (before r n w))) ->
  (forall w, grows_by la pa w (snd (body w))) ->
  forall budget n w,
    grows_by (S budget * la) (S budget * pa) w
             (snd (attempts r body budget n w)).
Proof.
  intros Hhook Hbody. induction budget as [| b IH]; intros n w;
    rewrite attempts_eq;
    assert (H1 := Hhook n w);
    assert (H2 := Hbody (snd (before r n w)));
    destruct (body (snd (before r n w))) as [[a | e] w2]; simpl snd in *;
    try (apply (grows_by_weaken (grows_by_trans H1 H2)); simpl; lia).
  - destruct (negb (retry r e)); simpl snd;
      apply (grows_by_weaken (grows_by_trans H1 H2)); simpl; lia.
  - destruct (negb (retry r e)); simpl snd;
      [apply (grows_by_weaken (grows_by_trans H1 H2)); simpl; lia |].
    assert (H3 := IH (S n) (snd (emit (Sleep (wait r n)) w2))).
    assert (H4 := emit_grows (Sleep (wait r n)) w2).
    apply (grows_by_weaken
             (grows_by_trans (grows_by_trans (grows_by_trans H1 H2) H4) H3));
      simpl; lia.
Qed.

Lemma log_retry_attempt_grows (n : nat) (w : World) :
  grows_by 0 0 w (snd (log_retry_attempt n w)).
Proof.
  unfold log_retry_attempt. destruct (1 <? n); [apply emit_grows |].
  unfold grows_by. simpl. lia.
Qed.

Lemma log_post_process_retry_grows (n : nat) (w : World) :
  grows_by 0 0 w (snd (log_post_process_retry n w)).
Proof.
  unfold log_post_process_retry. destruct (1 <? n); [apply emit_grows |].
  unfold grows_by. simpl. lia.
Qed.

Lemma llm_invoke_grows (self : StructuredAgent) (w : World) :
  grows_by 1 0 w (snd (llm_invoke self w)).
Proof.
  unfold llm_invoke, grows_by. destruct (llm self); simpl; lia.
Qed.

Lemma invoke_llm_grows (self : StructuredAgent) (w : World) :
  grows_by (attempts_of (retry_configs self)) 0 w (snd (invoke_llm self w)).
Proof.
  unfold invoke_llm, retrying.
  apply (grows_by_weaken
           (attempts_grows (llm_retryer self) (llm_invoke self)
              log_retry_attempt_grows (llm_invoke_grows self)
              (Z.to_nat (stop (llm_retryer self)) - 1) 1 w));
    unfold attempts_of; simpl stop; lia.
Qed.

Lemma pp_attempt_grows (self : StructuredAgent) (w : World) :
  grows_by (attempts_of (retry_configs self)) 1 w (snd (pp_attempt self w)).
Proof.
  unfold pp_attempt, bind. assert (H := invoke_llm_grows self w).
  destruct (invoke_llm self w) as [[raw | e] w1]; simpl snd in *.
  - unfold run_post_processor. simpl snd.
    unfold grows_by in *. simpl. lia.
  - apply (grows_by_weaken H); lia.
Qed.

(** X8. Whatever the model and the post-processor do, one call of the
    agent calls the model at most (outer attempts) times (inner attempts)
    times and the post-processor at most (inner attempts) times. *)
Theorem call_makes_bounded_calls (self : StructuredAgent) (w : World) :
  grows_by (attempts_of (pp_retry_configs self)
            * attempts_of (retry_configs self))
           (attempts_of (pp_retry_configs self))
           w (snd (call self w)).
Proof.
  assert (H := attempts_grows (pp_retryer self) (pp_attempt self)
                 log_post_process_retry_grows (pp_attempt_grows self)
                 (Z.to_nat (stop (pp_retryer self)) - 1) 1 w).
  unfold call, retrying.
  destruct (attempts (pp_retryer self) (pp_attempt self)
              (Z.to_nat (stop (pp_retryer self)) - 1) 1 w) as [[r | e] w1];
    simpl snd in *.
  - apply (grows_by_weaken H); unfold attempts_of; simpl stop; lia.
  - destruct (is_Exception e); simpl snd;
      [apply (grows_by_weaken (grows_by_trans H (emit_grows _ w1)))
      | apply (grows_by_weaken H)];
      unfold attempts_of; simpl stop; lia.
Qed.

(** ** Exceptions that are not [Exception]s *)

Lemma non_exception_not_listed (e : exc) :
  is_Exception e = false -> isinstance e pp_exc_types = false.
Proof.
  unfold is_Exception, isinstance, pp_exc_types.
  destruct (exc_cls e); simpl; congruence.
Qed.

(** X9. When the model raises something that is not an [Exception] (a
    KeyboardInterrupt, say), neither layer retries: the call raises it
    after that one call of the model, without sleeping, without
    post-processing and without the error log record. *)
Theorem non_exception_is_not_retried
    (self : StructuredAgent) (model : LLM) (w : World) (e : exc) :
  llm self = Some model ->
  model (llm_calls w) = Raise e ->
  is_Exception e = false ->
  call self w
  = (Raise e, {| llm_calls := S (llm_calls w); pp_calls := pp_calls w;
                 trace := trace w ++ [LLMInvoke (llm_calls w)] |}).
Proof.
  intros Hllm Hm He.
  assert (Hinv : llm_invoke self (snd (before (llm_retryer self) 1 w))
                 = (Raise e, {| llm_calls := S (llm_calls w);
                                pp_calls := pp_calls w;
                                trace := trace w ++ [LLMInvoke (llm_calls w)] |})).
  { change (snd (before (llm_retryer self) 1 w)) with w.
    unfold llm_invoke. now rewrite Hllm, Hm. }
  assert (Hatt : pp_attempt self (snd (before (pp_retryer self) 1 w))
                 = (Raise e, {| llm_calls := S (llm_calls w);
                                pp_calls := pp_calls w;
                                trace := trace w ++ [LLMInvoke (llm_calls w)] |})).
  { change (snd (before (pp_retryer self) 1 w)) with w.
    unfold pp_attempt, bind, invoke_llm, retrying.
    rewrite (attempts_propagate _ _ _ _ _ Hinv); [reflexivity |].
    simpl. now rewrite He. }
  unfold call, retrying.
  rewrite (attempts_propagate _ _ _ _ _ Hatt
             (non_exception_not_listed _ He)).
  now rewrite He.
Qed.

(** ** A model that fails, then answers *)

Lemma llm_attempts_recover (self : StructuredAgent) (model : LLM) (a : text) :
  llm self = Some model ->
  forall j budget n w,
    j <= budget ->
    (forall i, i < j ->
               exists e, model (llm_calls w + i) = Raise e
                         /\ is_Exception e = true) ->
    model (llm_calls w + j) = Return a ->
    exists w',
      attempts (llm_retryer self) (llm_invoke self) budget n w = (Return a, w')
      /\ llm_calls w' = llm_calls w + j + 1
      /\ pp_calls w' = pp_calls w
      /\ sleeps (trace w') = sleeps (trace w) + j.
Proof.
  intros Hllm. induction j as [| j IH]; intros budget n w Hj Hfail Hans;
    rewrite attempts_eq; simpl before;
    destruct (log_retry_attempt_calls n w) as [Hl Hp];
    assert (Hs := log_retry_attempt_sleeps n w);
    unfold llm_invoke at 1; rewrite Hllm, Hl.
  - rewrite Nat.add_0_r in Hans. rewrite Hans.
    eexists. split; [reflexivity |].
    cbn [llm_calls pp_calls trace]. rewrite sleeps_app, Hs, Hp.
    change (sleeps [LLMInvoke (llm_calls w)]) with 0. lia.
  - destruct (Hfail 0) as [e [He Hex]]; [lia |].
    rewrite Nat.add_0_r in He. rewrite He.
    simpl retry. rewrite Hex. simpl negb. cbv iota.
    destruct budget as [| b]; [lia |].
    match goal with
    | |- context [attempts _ _ b (S n) ?w0] =>
        destruct (IH b (S n) w0) as [w' [Hrun [Hl' [Hp' Hs']]]]
    end.
    + lia.
    + intros i Hi. cbn [llm_calls emit snd].
      destruct (Hfail (S i)) as [e' He']; [lia |].
      exists e'. now replace (S (llm_calls w) + i) with (llm_calls w + S i) by lia.
    + cbn [llm_calls emit snd].
      now replace (S (llm_calls w) + j) with (llm_calls w + S j) by lia.
    + exists w'. split; [exact Hrun |].
      cbn [llm_calls pp_calls trace emit snd] in Hl', Hp', Hs'.
      rewrite !sleeps_app, Hs in Hs'.
      change (sleeps [LLMInvoke (llm_calls w)]) with 0 in Hs'.
      change (sleeps [Sleep (wait (llm_retryer self) n)]) with 1 in Hs'.
      rewrite Hp in Hp'. lia.
Qed.

(** X10. The outer layer rides out transient failures: when the model
    raises Exceptions on its next [j] calls and then answers, with [j]
    below the outer number of attempts, and the post-processor accepts
    the answer, the call returns the post-processor's result after
    [j + 1] calls of the model, [j] sleeps and one post-processing. *)
Theorem outer_layer_recovers
    (self : StructuredAgent) (model : LLM) (w : World)
    (j : nat) (a : text) (r : Candidate) :
  llm self = Some model ->
  j < attempts_of (retry_configs self) ->
  (forall i, i < j ->
             exists e, model (llm_calls w + i) = Raise e
                       /\ is_Exception e = true) ->
  model (llm_calls w + j) = Return a ->
  post_processor self (pp_calls w) a = Return r ->
  exists w',
    call self w = (Return r, w')
    /\ llm_calls w' = llm_calls w + j + 1
    /\ pp_calls w' = S (pp_calls w)
    /\ sleeps (trace w') = sleeps (trace w) + j.
Proof.
  intros Hllm Hj Hfail Hans Hpp.
  destruct (@llm_attempts_recover self model a Hllm j
              (Z.to_nat (max_attempts (retry_configs self)) - 1) 1 w)
    as [w1 [Hrun [Hl [Hp Hs]]]];
    [unfold attempts_of in Hj; lia | exact Hfail | exact Hans |].
  assert (Hatt : pp_attempt self (snd (before (pp_retryer self) 1 w))
                 = (Return r, {| llm_calls := llm_calls w1;
                                 pp_calls := S (pp_calls w1);
                                 trace := trace w1 ++ [PostProcess (pp_calls w1)] |})).
  { change (snd (before (pp_retryer self) 1 w)) with w.
    unfold pp_attempt, bind, invoke_llm, retrying.
    change (stop (llm_retryer self)) with (max_attempts (retry_configs self)).
    rewrite Hrun. unfold run_post_processor. now rewrite Hp, Hpp. }
  eexists. unfold call, retrying.
  rewrite (attempts_return _ _ _ _ _ Hatt).
  split; [reflexivity |]. cbn [llm_calls pp_calls trace].
  rewrite sleeps_app, Hs, Hl, Hp.
  change (sleeps [PostProcess (pp_calls w)]) with 0. lia.
Qed.

(** ** Each inner attempt asks the model again *)

Lemma pp_attempt_once (self : StructuredAgent) (model : LLM) (w : World)
    (a : text) :
  llm self = Some model ->
  model (llm_calls w) = Return a ->
  pp_attempt self w
  = (post_processor self (pp_calls w) a,
     {| llm_calls := S (llm_calls w); pp_calls := S (pp_calls w);
        trace := (trace w ++ [LLMInvoke (llm_calls w)])
                 ++ [PostProcess (pp_calls w)] |}).
Proof.
  intros Hllm Hm.
  assert (Hinv : llm_invoke self (snd (before (llm_retryer self) 1 w))
                 = (Return a, {| llm_calls := S (llm_calls w);
                                 pp_calls := pp_calls w;
                                 trace := trace w ++ [LLMInvoke (llm_calls w)] |})).
  { change (snd (before (llm_retryer self) 1 w)) with w.
    unfold llm_invoke. now rewrite Hllm, Hm. }
  unfold pp_attempt, bind, invoke_llm, retrying.
  now rewrite (attempts_return _ _ _ _ _ Hinv).
Qed.

Lemma pp_attempts_refetch (self : StructuredAgent) (model : LLM) :
  llm self = Some model ->
  (forall k, exists a, model k = Return a) ->
  (forall k raw, exists e, post_processor self k raw = Raise e
                           /\ isinstance e pp_exc_types = true) ->
  forall budget n w,
  exists e w' raw,
    attempts (pp_retryer self) (pp_attempt self) budget n w = (Raise e, w')
    /\ llm_calls w' = llm_calls w + S budget
    /\ pp_calls w' = pp_calls w + S budget
    /\ model (llm_calls w' - 1) = Return raw
    /\ post_processor self (pp_calls w' - 1) raw = Raise e.
Proof.
  intros Hllm Hans Hpp.
  induction budget as [| b IH]; intros n w; rewrite attempts_eq;
    simpl before;
    destruct (log_post_process_retry_calls n w) as [Hl Hp];
    destruct (Hans (llm_calls (snd (log_post_process_retry n w))))
      as [a Ha];
    destruct (Hpp (pp_calls (snd (log_post_process_retry n w))) a)
      as [e [He Hw]];
    rewrite (pp_attempt_once _ _ Hllm Ha), He;
    change (retry (pp_retryer self) e) with (isinstance e pp_exc_types);
    rewrite Hw; simpl negb; cbv iota.
  - eexists; eexists; exists a. split; [reflexivity |].
    cbn [llm_calls pp_calls]. rewrite !Nat.sub_succ, !Nat.sub_0_r.
    rewrite Hl, Hp in *. repeat split; auto; lia.
  - match goal with
    | |- context [attempts _ _ b (S n) ?w0] =>
        destruct (IH (S n) w0) as [e' [w' [raw [Hrun [Hl' [Hp' H']]]]]]
    end.
    exists e', w', raw. split; [exact Hrun |].
    cbn [llm_calls pp_calls emit snd] in Hl', Hp'. rewrite Hl in Hl'.
    rewrite Hp in Hp'. split; [lia |]. split; [lia | exact H'].
Qed.

(** X11. Inner retries never reuse a stale answer.  With a model that
    always answers and a post-processor that always raises a whitelisted
    exception, the call uses every inner attempt, each with one fresh call
    of the model followed by one post-processing, and raises what the
    post-processor raised on the model's latest answer. *)
Theorem inner_retry_calls_model_again
    (self : StructuredAgent) (model : LLM) (w : World) :
  llm self = Some model ->
  (forall k, exists a, model k = Return a) ->
  (forall k raw, exists e, post_processor self k raw = Raise e
                           /\ isinstance e pp_exc_types = true) ->
  exists e w' raw,
    call self w = (Raise e, w')
    /\ llm_calls w' = llm_calls w + attempts_of (pp_retry_configs self)
    /\ pp_calls w' = pp_calls w + attempts_of (pp_retry_configs self)
    /\ model (llm_calls w' - 1) = Return raw
    /\ post_processor self (pp_calls w' - 1) raw = Raise e.
Proof.
  intros Hllm Hans Hpp.
  destruct (pp_attempts_refetch self Hllm Hans Hpp
              (Z.to_nat (max_attempts (pp_retry_configs self)) - 1) 1 w)
    as [e [w1 [raw [Hrun H]]]].
  exists e, (if is_Exception e then snd (emit (LogError e) w1) else w1), raw.
  unfold call, retrying.
  change (stop (pp_retryer self)) with (max_attempts (pp_retry_configs self)).
  rewrite Hrun. unfold attempts_of.
  destruct (is_Exception e); (split; [reflexivity | exact H]).
Qed.

(** ** Where a result comes from *)

Lemma llm_attempts_return (self : StructuredAgent) (raw : text) (budget : nat) :
  forall n w w',
    attempts (llm_retryer self) (llm_invoke self) budget n w = (Return raw, w') ->
    exists model,
      llm self = Some model
      /\ llm_calls w < llm_calls w'
      /\ pp_calls w' = pp_calls w
      /\ model (llm_calls w' - 1) = Return raw.
Proof.
  induction budget as [| b IH]; intros n w w'; rewrite attempts_eq;
    simpl before;
    destruct (log_retry_attempt_calls n w) as [Hl Hp];
    unfold llm_invoke at 1;
    destruct (llm self) as [model |] eqn:Hllm.
  - destruct (model (llm_calls (snd (log_retry_attempt n w)))) as [a | e] eqn:Em.
    + intros H. injection H as <- <-. exists model.
      cbn [llm_calls pp_calls]. rewrite Nat.sub_succ, Nat.sub_0_r.
      rewrite Hl in *. repeat split; auto; lia.
    + destruct (negb (retry (llm_retryer self) e)); discriminate.
  - destruct (negb (retry (llm_retryer self) _)); discriminate.
  - destruct (model (llm_calls (snd (log_retry_attempt n w)))) as [a | e] eqn:Em.
    + intros H. injection H as <- <-. exists model.
      cbn [llm_calls pp_calls]. rewrite Nat.sub_succ, Nat.sub_0_r.
      rewrite Hl in *. repeat split; auto; lia.
    + destruct (negb (retry (llm_retryer self) e)); [discriminate |].
      intros H. apply IH in H as [model' [Hm' [Hlt [Hpp Hlast]]]].
      exists model'. cbn [llm_calls pp_calls emit snd] in Hlt, Hpp.
      rewrite Hl in Hlt. rewrite Hp in Hpp. repeat split; auto; lia.
  - destruct (negb (retry (llm_retryer self) _)); [discriminate |].
    intros H. apply IH in H as [model' [Hm' _]]. discriminate.
Qed.

Lemma pp_attempt_return (self : StructuredAgent) (w w' : World) (r : Candidate) :
  pp_attempt self w = (Return r, w') ->
  exists model raw,
    llm self = Some model
    /\ llm_calls w < llm_calls w'
    /\ pp_calls w' = S (pp_calls w)
    /\ model (llm_calls w' - 1) = Return raw
    /\ post_processor self (pp_calls w' - 1) raw = Return r.
Proof.
  unfold pp_attempt, bind, invoke_llm, retrying.
  destruct (attempts (llm_retryer self) (llm_invoke self) _ 1 w)
    as [[raw | e] w1] eqn:E; [| discriminate].
  apply llm_attempts_return in E as [model [Hm [Hlt [Hpp Hlast]]]].
  unfold run_post_processor. intros H. injection H as Hr <-.
  exists model, raw. cbn [llm_calls pp_calls].
  rewrite Nat.sub_succ, Nat.sub_0_r. rewrite Hpp in *.
  split; [exact Hm |]. split; [exact Hlt |]. split; [reflexivity |].
  split; [exact Hlast | exact Hr].
Qed.

Lemma pp_attempts_return (self : StructuredAgent) (r : Candidate) (budget : nat) :
  forall n w w',
    attempts (pp_retryer self) (pp_attempt self) budget n w = (Return r, w') ->
    exists model raw,
      llm self = Some model
      /\ llm_calls w < llm_calls w'
      /\ pp_calls w < pp_calls w'
      /\ model (llm_calls w' - 1) = Return raw
      /\ post_processor self (pp_calls w' - 1) raw = Return r.
Proof.
  induction budget as [| b IH]; intros n w w'; rewrite attempts_eq;
    simpl before;
    destruct (log_post_process_retry_calls n w) as [Hl Hp];
    assert (Hg := pp_attempt_grows self (snd (log_post_process_retry n w)));
    destruct (pp_attempt self (snd (log_post_process_retry n w)))
      as [[r' | e] w2] eqn:E.
  - intros H. injection H as <- <-.
    apply pp_attempt_return in E
      as [model [raw [Hm [Hlt [Hpp [Hlast Hres]]]]]].
    exists model, raw. rewrite Hl in Hlt. rewrite Hp in Hpp.
    repeat split; auto; lia.
  - destruct (negb (retry (pp_retryer self) e)); discriminate.
  - intros H. injection H as <- <-.
    apply pp_attempt_return in E
      as [model [raw [Hm [Hlt [Hpp [Hlast Hres]]]]]].
    exists model, raw. rewrite Hl in Hlt. rewrite Hp in Hpp.
    repeat split; auto; lia.
  - destruct (negb (retry (pp_retryer self) e)); [discriminate |].
    intros H. apply IH in H as [model [raw [Hm [Hlt [Hlt' H]]]]].
    exists model, raw. cbn [llm_calls pp_calls emit snd] in Hlt, Hlt'.
    unfold grows_by in Hg. simpl snd in Hg. rewrite Hl, Hp in Hg.
    split; [exact Hm |]. split; [lia |]. split; [lia | exact H].
Qed.

(** X12. A result the agent returns is never stale: it is what the
    post-processor returned, at its latest call, for the answer of the
    latest call of the model; and the model attribute was set. *)
Theorem result_is_latest_answer_processed
    (self : StructuredAgent) (w w' : World) (r : Candidate) :
  call self w = (Return r, w') ->
  exists model raw,
    llm self = Some model
    /\ llm_calls w < llm_calls w'
    /\ pp_calls w < pp_calls w'
    /\ model (llm_calls w' - 1) = Return raw
    /\ post_processor self (pp_calls w' - 1) raw = Return r.
Proof.
  unfold call, retrying.
  destruct (attempts (pp_retryer self) (pp_attempt self) _ 1 w)
    as [[r' | e] w1] eqn:E.
  - intros H. injection H as <- <-. now apply pp_attempts_return in E.
  - destruct (is_Exception e); discriminate.
Qed.

End AgentFacts.

(* ================================================================== *)
(** * Nested dictionaries *)
(* ================================================================== *)

Section NestedFacts.

Lemma dict_get_set_same (items : dict) (key : string) (v : yaml_value) :
  dict_get (dict_set items key v) key = Some v.
Proof.
  induction items as [| [k x] items IH]; simpl.
  - now rewrite String.eqb_refl.
  - destruct (is_key key k) eqn:E; simpl; now rewrite E.
Qed.

Lemma dict_get_set_other (items : dict) (key key' : string) (v : yaml_value) :
  key <> key' ->
  dict_get (dict_set items key v) key' = dict_get items key'.
Proof.
  intros Hne. induction items as [| [k x] items IH]; simpl.
  - destruct (String.eqb_spec key key'); [contradiction | reflexivity].
  - destruct (is_key key k) eqn:E; simpl; [| now rewrite IH].
    destruct (is_key key' k) eqn:E'; [| reflexivity].
    destruct k; simpl in E, E'; try discriminate.
    apply String.eqb_eq in E, E'. congruence.
Qed.

(** A path that resolves can be followed first. *)
Lemma get_nested_value_app (data v : yaml_value) (ks1 ks2 : list string)
    (d : yaml_value) :
  resolves data ks1 v ->
  get_nested_value data (ks1 ++ ks2) d = get_nested_value v ks2 d.
Proof.
  induction 1 as [| items key keys v w Hget Hres IH]; [reflexivity |].
  simpl. now rewrite Hget.
Qed.

(** X13. [get_nested_value] returns the value a path leads to, whatever
    the default; and when the path leads to a dictionary that lacks the
    next key, it returns the default, whatever keys follow. *)
Theorem get_nested_value_found_or_default
    (data v d : yaml_value) (ks : list string) :
  resolves data ks v ->
  get_nested_value data ks d = Ok v
  /\ forall items key rest,
      v = YMap items -> dict_get items key = None ->
      get_nested_value data (ks ++ key :: rest) d = Ok d.
Proof.
  intros H. split.
  - rewrite <- (app_nil_r ks). now rewrite (get_nested_value_app _ d H).
  - intros items key rest -> Hnone.
    rewrite (get_nested_value_app _ d H). simpl. now rewrite Hnone.
Qed.

(** X14. A value that is no container stops the lookup with a TypeError,
    not with the default: when the path leads to [None], a boolean or a
    number and keys remain, [key in data] raises.  At a string the
    lookup returns the default unless the key occurs in the string, in
    which case indexing raises. *)
Theorem get_nested_value_raises_at_scalars
    (data v d : yaml_value) (ks : list string) (key : string)
    (rest : list string) :
  resolves data ks v ->
  (match v with
   | YNull | YBool _ | YInt _ | YFloat _ => True
   | _ => False
   end ->
   get_nested_value data (ks ++ key :: rest) d = TypeErr (NotIterable v))
  /\ (forall s, v = YStr s ->
        get_nested_value data (ks ++ key :: rest) d
        = if str_in key s then TypeErr (BadIndex v key) else Ok d).
Proof.
  intros H. rewrite (get_nested_value_app _ d H). split.
  - destruct v; simpl; tauto.
  - intros s ->. reflexivity.
Qed.

(** ** Loading files *)

Lemma store_get (dirs : list string) :
  forall items items' name content d,
    store items dirs name content = Ok items' ->
    get_nested_value (YMap items') (dirs ++ [name]) d = Ok content.
Proof.
  induction dirs as [| part rest IH]; intros items items' name content d.
  - simpl. intros H. injection H as <-. now rewrite dict_get_set_same.
  - cbn [store app].
    destruct (match dict_get items part with Some x => x | None => YMap [] end)
      as [| | | | | | sub] eqn:En;
      try (destruct rest; discriminate).
    destruct (store sub rest name content) as [sub' |] eqn:Es; [| discriminate].
    intros H. injection H as <-.
    cbn [get_nested_value]. rewrite dict_get_set_same.
    now apply (IH sub).
Qed.

Lemma store_frame (dirs : list string) :
  forall items items' name content ks d,
    diverge (dirs ++ [name]) ks ->
    store items dirs name content = Ok items' ->
    get_nested_value (YMap items') ks d = get_nested_value (YMap items) ks d.
Proof.
  induction dirs as [| part rest IH];
    intros items items' name content ks d [c [a [b [p' [q' [Hp [Hq Hne]]]]]]].
  - simpl. intros H. injection H as <-.
    destruct c as [| x c].
    + simpl in Hp, Hq. injection Hp as <- _. subst ks.
      simpl. now rewrite dict_get_set_other.
    + simpl in Hp. injection Hp as _ Hp. destruct c; discriminate.
  - cbn [store].
    destruct (match dict_get items part with Some x => x | None => YMap [] end)
      as [| | | | | | sub] eqn:En;
      try (destruct rest; discriminate).
    destruct (store sub rest name content) as [sub' |] eqn:Es; [| discriminate].
    intros H. injection H as <-.
    destruct c as [| x c].
    + simpl in Hp, Hq. injection Hp as <- _. subst ks.
      simpl. now rewrite dict_get_set_other.
    + simpl in Hp. injection Hp as <- Hp. subst ks.
      cbn [app get_nested_value]. rewrite dict_get_set_same.
      assert (Hdiv : diverge (rest ++ [name]) (c ++ b :: q')).
      { exists c, a, b, p', q'. auto. }
      rewrite (IH sub sub' name content _ d Hdiv Es).
      destruct (dict_get items part) as [y |]; [now subst y |].
      injection En as <-.
      destruct c; reflexivity.
Qed.

Lemma load_into_frame (files : list file) :
  forall reg reg' ks d,
    load_into reg files = Ok reg' ->
    (forall g, In g files -> diverge (f_parts g) ks) ->
    get_nested_value (YMap reg') ks d = get_nested_value (YMap reg) ks d.
Proof.
  induction files as [| f files IH]; intros reg reg' ks d; simpl.
  - intros H _. now injection H as <-.
  - destruct (store reg (f_dirs f) (f_name f) (f_content f)) as [reg1 |] eqn:Es;
      [| discriminate].
    intros H Hdiv. rewrite (IH _ _ _ d H) by auto.
    apply (store_frame _ _ _ _ d (Hdiv f (or_introl eq_refl)) Es).
Qed.

(** X15. What [recusvie_load_files] stores, [get_nested_value] finds: in
    the registry it returns, the path of a file leads to the content of
    that file, provided the path of every file loaded after it parts
    ways with it at some component. *)
Theorem loaded_file_is_found
    (files : list file) (reg : dict) (before_f after_f : list file)
    (f : file) (d : yaml_value) :
  recusvie_load_files files = Ok reg ->
  files = before_f ++ f :: after_f ->
  (forall g, In g after_f -> diverge (f_parts g) (f_parts f)) ->
  get_nested_value (YMap reg) (f_parts f) d = Ok (f_content f).
Proof.
  unfold recusvie_load_files. intros Hload -> Hdiv.
  revert Hload. generalize (@nil (yaml_key * yaml_value)) as reg0.
  induction before_f as [| g before_f IH]; intros reg0; simpl.
  - destruct (store reg0 (f_dirs f) (f_name f) (f_content f)) as [reg1 |] eqn:Es;
      [| discriminate].
    intros H. rewrite (load_into_frame _ _ d H Hdiv).
    apply (store_get _ _ _ _ d Es).
  - destruct (store reg0 (f_dirs g) (f_name g) (f_content g)) as [reg1 |];
      [apply IH | discriminate].
Qed.

(** X16. A file cannot be stored below something that is not a
    dictionary: when a proper prefix of its path leads to the content of
    an earlier file that is a string, a list or a scalar, the loop
    raises a TypeError. *)
Theorem store_below_a_file_raises
    (pre : list string) :
  forall (items : dict) (v : yaml_value) (more : list string)
         (name : string) (content : yaml_value),
    resolves (YMap items) pre v ->
    is_dict v = false ->
    exists e, store items (pre ++ more) name content = TypeErr e.
Proof.
  induction pre as [| key keys IH]; intros items v more name content Hres Hv.
  - inversion Hres; subst. discriminate.
  - inversion Hres as [| items0 key0 keys0 v1 w Hget Hres1]; subst.
    cbn [app store]. rewrite Hget.
    destruct keys as [| key' keys].
    + inversion Hres1; subst.
      destruct v; try discriminate; simpl; destruct more; eauto.
    + inversion Hres1 as [| items1 ? ? v2 ? Hget1 Hres2]; subst.
      destruct (IH items1 v more name content Hres1 Hv) as [e He].
      rewrite He. eauto.
Qed.

End NestedFacts.

(* ================================================================== *)
(** * Attribute paths, element trees and the parser *)
(* ================================================================== *)

Section PathFacts.

Lemma split_dot_from_app (p t cur : text) :
  dot_free p = true ->
  split_dot_from (p ++ t) cur = split_dot_from t (rev p ++ cur).
Proof.
  revert cur. induction p as [| c p IH]; intros cur H; [reflexivity |].
  simpl in H. apply andb_prop in H as [Hc Hp].
  apply negb_true_iff in Hc. simpl. rewrite Hc, (IH _ Hp).
  now rewrite <- app_assoc.
Qed.

Lemma split_dot_from_join (parts : list text) :
  forall p cur,
    (forall q, In q (p :: parts) -> dot_free q = true) ->
    split_dot_from (join_dot (p :: parts)) cur = (rev cur ++ p) :: parts.
Proof.
  induction parts as [| p' parts IH]; intros p cur H.
  - simpl join_dot. replace p with (p ++ []) at 1 by apply app_nil_r.
    rewrite split_dot_from_app by (apply H; now left).
    simpl. now rewrite rev_app_distr, rev_involutive.
  - change (join_dot (p :: p' :: parts)) with (p ++ dot :: join_dot (p' :: parts)).
    rewrite split_dot_from_app by (apply H; now left).
    cbn [split_dot_from]. rewrite Ascii.eqb_refl.
    rewrite IH by (intros q Hq; apply H; now right).
    now rewrite rev_app_distr, rev_involutive.
Qed.

(** X17. [get_nested_attribute] with the names joined by dots follows the
    names one after the other, whenever no name holds a dot: it returns
    the attribute they lead to, or the default as soon as one is
    missing.  The empty path is the one name [""]: it returns the
    default, not the object, when the object has no attribute of that
    name. *)
Theorem get_nested_attribute_follows_names
    (obj d : pyobj) (p : text) (parts : list text) :
  (forall q, In q (p :: parts) -> dot_free q = true) ->
  get_nested_attribute obj (join_dot (p :: parts)) d
  = walk_attributes obj (p :: parts) d
  /\ (attr_lookup (attrs_of obj) "" = None ->
      get_nested_attribute obj [] d = d).
Proof.
  intros H. unfold get_nested_attribute, split_dot. split.
  - now rewrite split_dot_from_join.
  - intros Hnone. simpl. now rewrite Hnone.
Qed.

(** ** Element trees *)

Lemma write_if_appends (s : option text) (stream : text) :
  write_if s stream = stream ++ text_or_empty s.
Proof.
  destruct s as [[| c r] |]; simpl; now rewrite ?app_nil_r.
Qed.

Lemma walk_element_eq (tag : string) (t : option text) (cs : list Element)
    (tl : option text) (stream : text) :
  _walk_element (Elem tag t cs tl) stream
  = write_if tl (walk_all cs (write_if t stream)).
Proof. reflexivity. Qed.

Lemma walk_element_appends :
  forall (e : Element) (stream : text),
    _walk_element e stream = stream ++ _unmark_element e.
Proof.
  fix IH 1. intros [tag t cs tl] stream.
  assert (Hall : forall s, walk_all cs s = s ++ walk_all cs []).
  { induction cs as [| c cs IHcs]; intros s; simpl.
    - now rewrite app_nil_r.
    - rewrite IHcs, (IHcs (_walk_element c [])), (IH c s).
      now rewrite app_assoc. }
  unfold _unmark_element. rewrite !walk_element_eq, !write_if_appends.
  rewrite Hall, (Hall ([] ++ _)). simpl. now rewrite !app_assoc.
Qed.

Lemma walk_all_concat (cs : list Element) :
  walk_all cs [] = List.concat (map _unmark_element cs).
Proof.
  induction cs as [| c cs IH]; simpl; [reflexivity |].
  fold walk_all. rewrite <- IH.
  assert (Hall : forall l s, walk_all l s = s ++ walk_all l []).
  { induction l as [| x l IHl]; intros s; simpl.
    - now rewrite app_nil_r.
    - fold walk_all.
      rewrite IHl, (IHl (_walk_element x [])), (walk_element_appends x s).
      now rewrite app_assoc. }
  now rewrite Hall.
Qed.

(** X18. [_walk_element] only appends to the stream, and what
    [_unmark_element] returns for an element is its text, then the plain
    text of its sub-elements in their order, then its tail: no tag is
    written. *)
Theorem unmark_element_is_text_in_order
    (tag : string) (t : option text) (cs : list Element) (tl : option text)
    (stream : text) :
  _walk_element (Elem tag t cs tl) stream
  = stream ++ _unmark_element (Elem tag t cs tl)
  /\ _unmark_element (Elem tag t cs tl)
     = text_or_empty t ++ List.concat (map _unmark_element cs) ++ text_or_empty tl.
Proof.
  split; [apply walk_element_appends |].
  unfold _unmark_element. rewrite walk_element_eq, !write_if_appends.
  rewrite <- walk_all_concat. simpl.
  assert (Hall : forall l s, walk_all l s = s ++ walk_all l []).
  { induction l as [| x l IHl]; intros s; simpl.
    - now rewrite app_nil_r.
    - fold walk_all.
      rewrite IHl, (IHl (_walk_element x [])), (walk_element_appends x s).
      now rewrite app_assoc. }
  rewrite Hall. now rewrite app_assoc.
Qed.

End PathFacts.

Section ParserFacts.

Variable safe_load : text -> load_result.
Variable md_convert : text -> text.
Variable is_YAMLError : exc -> bool.
Variables T D : Type.
Variable model_validate : Candidate -> validation T D.

Local Abbreviation content := (extract_yaml_content safe_load md_convert).
Local Abbreviation parse_text :=
  (parse safe_load md_convert is_YAMLError model_validate).

(** X19. [YamlPydanticParser.parse] never raises its "Invalid YAML Syntax"
    exception: the extractor swallows every YAML error and raises a plain
    ValueError when no candidate is left, which is no [yaml.YAMLError] and
    leaves [parse] as it is.  The parser's own exception comes from schema
    validation only; a returned object is the validation of the last
    extracted candidate. *)
Theorem parse_wraps_validation_errors_only (t : text) :
  (forall m, is_YAMLError (value_error m) = false) ->
  match parse_text t with
  | inl obj =>
      exists data, content t = Return data /\ model_validate data = Valid obj
  | inr (InvalidYAMLSyntax _) => False
  | inr (SchemaValidationFailed diagnostics) =>
      exists data, content t = Return data
                   /\ model_validate data = ValidationError diagnostics
  | inr (Propagated e) =>
      content t = Raise e /\ e = value_error (NoValidYAML [])
      /\ extract_yaml_segments safe_load md_convert (strip t) false = []
  end.
Proof.
  intros Hyaml. unfold parse.
  destruct (content t) as [data | e] eqn:E.
  - destruct (model_validate data) eqn:Ev; exists data; auto.
  - assert (He : e = value_error (NoValidYAML [])
                 /\ extract_yaml_segments safe_load md_convert (strip t) false
                    = []).
    { unfold extract_yaml_content, process, extract_from_text in E.
      simpl in E.
      destruct (extract_yaml_segments safe_load md_convert (strip t) false);
        [| discriminate].
      injection E as <-. auto. }
    destruct He as [-> Hnil]. rewrite Hyaml. auto.
Qed.

End ParserFacts.


(* ================================================================== *)
(** * More closed instances *)
(* ================================================================== *)

Lemma potential_segments_two_blocks :
  In (T "title: B") (potential_segments two_blocks)
  /\ is_stripped (T "title: B") = true
  /\ strip (T "title: B") = T "title: B".
Proof.
  assert (Hin : In (T "title: B") (potential_segments two_blocks))
    by (vm_compute; right; left; reflexivity).
  destruct (potential_segments_are_stripped _ _ Hin) as [_ [Hs [Hfix _]]].
  auto.
Defined.

Lemma fenced_match_of_fenced_then_plain :
  In {| m_start := 0; m_end := 20; m_group1 := T "title: A" |}
     (finditer fenced_then_plain)
  /\ find_close (T "title: A") = None.
Proof.
  assert (Hin : In {| m_start := 0; m_end := 20; m_group1 := T "title: A" |}
                   (finditer fenced_then_plain))
    by (vm_compute; left; reflexivity).
  destruct (fenced_match_shape _ _ Hin) as [_ [_ H]]. auto.
Defined.

Lemma filter_mode_result_is_complete :
  process pyyaml markdown (recipe_extractor "last") two_blocks true
  = Return recipe_A
  /\ key_in "steps" recipe_A = true.
Proof.
  assert (H : process pyyaml markdown (recipe_extractor "last") two_blocks true
              = Return recipe_A) by reflexivity.
  destruct (process_returns_complete_candidate _ _ _ _ _ H) as [_ Hk].
  split; [exact H |]. apply Hk. right. now left.
Defined.

Lemma strict_failure_is_retryable :
  process pyyaml markdown (recipe_extractor "last") two_blocks false
  = Raise (value_error (MissingMandatory 2 ["steps"%string]))
  /\ retry (pp_retryer (default_agent (always_answers two_blocks)))
       (value_error (MissingMandatory 2 ["steps"%string])) = true.
Proof.
  assert (H : process pyyaml markdown (recipe_extractor "last") two_blocks false
              = Raise (value_error (MissingMandatory 2 ["steps"%string])))
    by reflexivity.
  destruct (process_raises_value_errors_only _ _ _ _ _ H) as [_ [_ Hr]].
  split; [exact H | apply Hr].
Defined.


Lemma keyboard_interrupt_run :
  call (default_agent (always_raises NonException)) world0
  = (Raise {| exc_cls := NonException; exc_msg := External 0 |},
     {| llm_calls := 1; pp_calls := 0; trace := [LLMInvoke 0] |}).
Proof.
  apply (@non_exception_is_not_retried
           (default_agent (always_raises NonException))
           (always_raises NonException) world0); reflexivity.
Defined.

Lemma recovery_after_two_failures :
  2 < attempts_of (retry_configs (default_agent (fails_then_answers 2 (T "ok"))))
  /\ exists w',
      call (default_agent (fails_then_answers 2 (T "ok"))) world0
      = (Return [(KStr "output", YStr "ok")], w')
      /\ llm_calls w' = 3 /\ pp_calls w' = 1 /\ sleeps (trace w') = 2.
Proof.
  split; [vm_compute; lia |].
  apply (@outer_layer_recovers
           (default_agent (fails_then_answers 2 (T "ok")))
           (fails_then_answers 2 (T "ok")) world0 2 (T "ok")).
  - reflexivity.
  - vm_compute. lia.
  - intros i Hi. eexists. split.
    + simpl. unfold fails_then_answers.
      destruct (Nat.ltb_spec i 2); [reflexivity | lia].
    + reflexivity.
  - reflexivity.
  - reflexivity.
Defined.

Lemma rejecting_agent_run :
  exists e w' raw,
    call (rejecting_agent (always_answers (T "title: A"))) world0 = (Raise e, w')
    /\ llm_calls w' = 3 /\ pp_calls w' = 3
    /\ always_answers (T "title: A") (llm_calls w' - 1) = Return raw
    /\ always_rejects (pp_calls w' - 1) raw = Raise e.
Proof.
  apply (@inner_retry_calls_model_again
           (rejecting_agent (always_answers (T "title: A")))
           (always_answers (T "title: A")) world0).
  - reflexivity.
  - intros k. eexists. reflexivity.
  - intros k raw. eexists. split; reflexivity.
Defined.

Lemma yaml_agent_result_provenance :
  exists model raw,
    llm (yaml_agent (always_answers fenced_then_plain)) = Some model
    /\ model 0 = Return raw
    /\ yaml_post_processor default_extractor 0 raw = Return title_A.
Proof.
  destruct (@result_is_latest_answer_processed
              (yaml_agent (always_answers fenced_then_plain)) world0
              (snd (call (yaml_agent (always_answers fenced_then_plain)) world0))
              title_A eq_refl)
    as [model [raw [Hm [_ [_ [Hl Hp]]]]]].
  exists model, raw. auto.
Defined.

Lemma sample_registry_lookups :
  resolves (YMap sample_registry) ["prompts"%string]
    (YMap [(KStr "greet", YStr "hello"); (KStr "count", YInt 2)])
  /\ get_nested_value (YMap sample_registry) ["prompts"; "missing"; "x"]%string
       YNull = Ok YNull.
Proof.
  assert (H : resolves (YMap sample_registry) ["prompts"%string]
                (YMap [(KStr "greet", YStr "hello"); (KStr "count", YInt 2)])).
  { eapply resolves_down; [reflexivity | constructor]. }
  split; [exact H |].
  destruct (get_nested_value_found_or_default YNull H) as [_ Hd].
  apply (Hd _ "missing"%string ["x"%string] eq_refl). reflexivity.
Defined.

Lemma sample_registry_scalar_in_the_way :
  resolves (YMap sample_registry) ["prompts"; "count"]%string (YInt 2)
  /\ get_nested_value (YMap sample_registry) ["prompts"; "count"; "x"]%string
       YNull = TypeErr (NotIterable (YInt 2)).
Proof.
  assert (H : resolves (YMap sample_registry) ["prompts"; "count"]%string
                (YInt 2)).
  { eapply resolves_down; [reflexivity |].
    eapply resolves_down; [reflexivity | constructor]. }
  split; [exact H |].
  destruct (get_nested_value_raises_at_scalars YNull "x"%string [] H)
    as [Hs _].
  apply Hs. exact I.
Defined.

Lemma greet_file_is_found :
  exists reg,
    recusvie_load_files [greet_file; bye_file] = Ok reg
    /\ get_nested_value (YMap reg) ["prompts"; "greet"]%string YNull
       = Ok (YStr "hello").
Proof.
  eexists. split; [reflexivity |].
  apply (@loaded_file_is_found [greet_file; bye_file] _ [] [bye_file]
           greet_file YNull); [reflexivity | reflexivity |].
  intros g [<- | []].
  exists ["prompts"%string], "bye"%string, "greet"%string, [], [].
  repeat split. discriminate.
Defined.

Lemma file_below_a_file_raises :
  resolves (YMap [(KStr "prompts", YMap [(KStr "greet", YStr "hello")])])
    ["prompts"; "greet"]%string (YStr "hello")
  /\ exists e,
      store [(KStr "prompts", YMap [(KStr "greet", YStr "hello")])]
        (f_dirs below_greet_file) (f_name below_greet_file)
        (f_content below_greet_file) = TypeErr e.
Proof.
  assert (H : resolves
                (YMap [(KStr "prompts", YMap [(KStr "greet", YStr "hello")])])
                ["prompts"; "greet"]%string (YStr "hello")).
  { eapply resolves_down; [reflexivity |].
    eapply resolves_down; [reflexivity | constructor]. }
  split; [exact H |].
  apply (@store_below_a_file_raises ["prompts"; "greet"]%string _ _ []
           "formal"%string (YStr "good day") H).
  reflexivity.
Defined.

Lemma sample_runtime_user :
  get_nested_attribute sample_runtime (T "context.user") (Obj []) = Obj []
  /\ get_nested_attribute sample_runtime (T "context.role")
       (Obj [("none"%string, Obj [])])
     = Obj [("none"%string, Obj [])].
Proof.
  split.
  - destruct (@get_nested_attribute_follows_names sample_runtime (Obj [])
                (T "context") [T "user"]) as [H _].
    + intros q [<- | [<- | []]]; reflexivity.
    + exact H.
  - destruct (@get_nested_attribute_follows_names sample_runtime
                (Obj [("none"%string, Obj [])])
                (T "context") [T "role"]) as [H _].
    + intros q [<- | [<- | []]]; reflexivity.
    + exact H.
Defined.

Lemma parse_fenced_then_plain :
  parse pyyaml markdown (fun _ => false) title_schema fenced_then_plain
  = inl title_A
  /\ parse pyyaml markdown (fun _ => false) title_schema (T "some prose")
     = inr (Propagated (value_error (NoValidYAML []))).
Proof.
  split.
  - assert (H := @parse_wraps_validation_errors_only pyyaml markdown
                   (fun _ => false) _ _ title_schema fenced_then_plain
                   (fun _ => eq_refl)).
    reflexivity.
  - assert (H := @parse_wraps_validation_errors_only pyyaml markdown
                   (fun _ => false) _ _ title_schema (T "some prose")
                   (fun _ => eq_refl)).
    destruct (parse pyyaml markdown (fun _ => false) title_schema
                (T "some prose")) as [obj | [e | diag | e]] eqn:E.
    + destruct H as [data [Hd _]]. discriminate.
    + destruct H.
    + destruct H as [data [Hd _]]. discriminate.
    + destruct H as [_ [-> _]]. reflexivity.
Defined.

(* ================================================================== *)
(** * Truncation to a token limit *)
(* ================================================================== *)

Section TruncateFacts.

Variable tokenizer : text -> outcome Encoding.
Variable decode_prefix : text -> Z -> outcome text.
Variable max_tokens : Z.
Variable ellipsis : text.
Variable verbose : bool.
Variable logger : bool.

Local Abbreviation truncate :=
  (truncate_text_to_token_limit tokenizer decode_prefix max_tokens ellipsis
     verbose logger).

Lemma shrink_suffix (k : list text) :
  forall k',
    shrink tokenizer max_tokens verbose logger k = Done k' ->
    (exists dropped, k = dropped ++ k') /\ (k <> [] -> k' <> []).
Proof.
  induction k as [| w rest IH]; intros k'.
  - simpl. destruct (tokenizer []) as [enc | e]; [| discriminate].
    destruct (max_tokens <? Z.of_nat (rows enc))%Z; intros H;
      injection H as <-; (split; [now exists [] | auto]).
  - cbn [shrink].
    destruct (tokenizer (join_space (rev (w :: rest)))) as [enc | e];
      [| discriminate].
    destruct (max_tokens <? Z.of_nat (rows enc))%Z.
    + destruct rest as [| x r].
      * intros H. injection H as <-. split; [now exists [] | auto].
      * assert (Hrec : shrink tokenizer max_tokens verbose logger (x :: r)
                       = Done k' ->
                       (exists dropped, w :: x :: r = dropped ++ k')
                       /\ (w :: x :: r <> [] -> k' <> [])).
        { intros H. destruct (IH _ H) as [[dropped Hd] Hne].
          split; [exists (w :: dropped); simpl; now f_equal |].
          intros _. apply Hne. discriminate. }
        destruct verbose; [| exact Hrec].
        unfold log. destruct logger; [exact Hrec | discriminate].
    + intros H. injection H as <-. split; [now exists [] | auto].
Qed.

Lemma make_room_suffix (n : nat) (k : list text) :
  forall k' oe,
    make_room tokenizer max_tokens n k = (k', oe) ->
    (exists dropped, k = dropped ++ k') /\ (k <> [] -> k' <> []).
Proof.
  induction k as [| w rest IH]; intros k' oe.
  - simpl. destruct (tokenizer []) as [enc | e].
    + destruct (max_tokens <? Z.of_nat (rows enc + n))%Z; intros H;
        injection H as <- _; (split; [now exists [] | auto]).
    + intros H. injection H as <- _. split; [now exists [] | auto].
  - cbn [make_room].
    destruct (tokenizer (join_space (rev (w :: rest)))) as [enc | e].
    + destruct (max_tokens <? Z.of_nat (rows enc + n))%Z.
      * destruct rest as [| x r].
        -- intros H. injection H as <- _. split; [now exists [] | auto].
        -- intros H. destruct (IH _ _ H) as [[dropped Hd] Hne].
           split; [exists (w :: dropped); simpl; now f_equal |].
           intros _. apply Hne. discriminate.
      * intros H. injection H as <- _. split; [now exists [] | auto].
    + intros H. injection H as <- _. split; [now exists [] | auto].
Qed.

Lemma add_ellipsis_shape (n_words : nat) (k : list text) (final : text) :
  add_ellipsis tokenizer max_tokens ellipsis logger n_words k = Done final ->
  exists k',
    (exists dropped, k = dropped ++ k') /\ (k <> [] -> k' <> [])
    /\ (final = join_space (rev k')
        \/ final = join_space (rev k') ++ ellipsis).
Proof.
  assert (Hself : exists dropped : list text, k = dropped ++ k)
    by now exists [].
  assert (Hcaught : forall e,
             caught logger e (join_space (rev k)) = Done final ->
             exists k',
               (exists dropped, k = dropped ++ k') /\ (k <> [] -> k' <> [])
               /\ (final = join_space (rev k')
                   \/ final = join_space (rev k') ++ ellipsis)).
  { intros e. unfold caught, log.
    destruct (is_Exception e); [| discriminate].
    destruct logger; [| discriminate].
    intros H. injection H as <-. exists k. auto. }
  unfold add_ellipsis. destruct (List.length k <? n_words).
  - destruct (tokenizer ellipsis) as [enc_e | e]; [| apply Hcaught].
    destruct (tokenizer (join_space (rev k))) as [enc_c | e];
      [| apply Hcaught].
    destruct (Z.of_nat (rows enc_c + rows enc_e) <=? max_tokens)%Z.
    + intros H. injection H as <-. exists k. auto.
    + destruct (make_room tokenizer max_tokens (rows enc_e) k)
        as [k' [e |]] eqn:Em;
        destruct (make_room_suffix _ _ Em) as [Hsuf Hne].
      * unfold caught, log. destruct (is_Exception e); [| discriminate].
        destruct logger; [| discriminate].
        intros H. injection H as <-. exists k'. auto.
      * intros H. injection H as <-. exists k'.
        split; [exact Hsuf |]. split; [exact Hne |].
        destruct (nonempty (join_space (rev k'))); auto.
  - intros H. injection H as <-. exists k. auto.
Qed.

Lemma split_ws_from_nonempty (t cur : text) :
  cur <> [] -> split_ws_from t cur <> [].
Proof.
  revert cur. induction t as [| c t IH]; intros cur Hcur; simpl.
  - destruct cur; [congruence | discriminate].
  - destruct (is_space c).
    + destruct cur; [congruence | discriminate].
    + apply IH. discriminate.
Qed.

Lemma stripped_text_has_a_word (t : text) :
  strip t <> [] -> split_ws (strip t) <> [].
Proof.
  destruct (strip_split t) as [_ [_ [_ [_ [_ Hs]]]]].
  destruct (strip t) as [| c r]; [congruence |]. intros _.
  unfold is_stripped in Hs. apply andb_prop in Hs as [Hc _].
  apply negb_true_iff in Hc. unfold split_ws. simpl. rewrite Hc.
  apply split_ws_from_nonempty. discriminate.
Qed.

(** X20. What [truncate_text_to_token_limit] returns.  Either the stripped
    text as it is (when it is empty, when the tokenizer raised an
    Exception and a logger was passed, or when the text fits), or a text
    built from a non-empty beginning of the words of the stripped text,
    joined by single spaces and with the ellipsis appended or not: that
    text when the tokenizer counts at most [max_tokens] tokens for it,
    and the decoding of its first [max_tokens] tokens otherwise.  The
    first word is always kept. *)
Theorem truncation_keeps_a_beginning_of_the_words (t out : text) :
  truncate t = Done out ->
  (0 < max_tokens)%Z
  /\ ((out = strip t
       /\ (strip t = []
           \/ (exists e, tokenizer (strip t) = Raise e
                         /\ is_Exception e = true /\ logger = true)
           \/ (exists enc, tokenizer (strip t) = Return enc
                           /\ (Z.of_nat (cols enc) <= max_tokens)%Z)))
      \/ exists kept final enc,
          kept <> []
          /\ is_prefix kept (split_ws (strip t))
          /\ (final = join_space kept \/ final = join_space kept ++ ellipsis)
          /\ tokenizer final = Return enc
          /\ ((Z.of_nat (cols enc) <= max_tokens)%Z /\ out = final
              \/ (max_tokens < Z.of_nat (cols enc))%Z
                 /\ decode_prefix final max_tokens = Return out)).
Proof.
  unfold truncate_text_to_token_limit.
  destruct (Z.leb_spec max_tokens 0) as [| Hpos]; [discriminate |].
  intros H. split; [exact Hpos |].
  destruct (strip t) as [| c r] eqn:Es.
  { simpl in H. injection H as <-. left. auto. }
  cbn [nonempty negb] in H.
  destruct (tokenizer (c :: r)) as [enc0 | e] eqn:Et.
  2:{ destruct (is_Exception e) eqn:Ee; [| discriminate].
      unfold log in H. destruct logger eqn:El; [| discriminate].
      injection H as <-. left. split; [reflexivity |].
      right. left. exists e. auto. }
  destruct (Z.leb_spec (Z.of_nat (cols enc0)) max_tokens) as [Hfit | Hbig].
  { injection H as <-. left. split; [reflexivity |]. right. right.
    exists enc0. auto. }
  assert (Hwords : split_ws (c :: r) <> []).
  { rewrite <- Es. apply stripped_text_has_a_word. rewrite Es. discriminate. }
  destruct (split_ws (c :: r)) as [| w ws] eqn:Ew; [congruence |].
  cbn [nonempty negb] in H.
  set (words := w :: ws) in *.
  set (n := Z.to_nat (Z.max 1 (Z.of_nat (List.length words) * max_tokens
                               / Z.of_nat (cols enc0)))) in *.
  assert (Hn : 1 <= n) by (unfold n; lia).
  destruct (shrink tokenizer max_tokens verbose logger (rev (firstn n words)))
    as [k1 |] eqn:Esh; [| discriminate].
  destruct (add_ellipsis tokenizer max_tokens ellipsis logger
              (List.length words) k1) as [final |] eqn:Eadd; [| discriminate].
  destruct (shrink_suffix _ Esh) as [[d1 Hd1] Hne1].
  destruct (add_ellipsis_shape _ _ Eadd) as [k2 [[d2 Hd2] [Hne2 Hfinal]]].
  right. exists (rev k2), final.
  unfold finish in H.
  destruct (tokenizer final) as [enc |] eqn:Ef; [| discriminate].
  exists enc.
  assert (Hfirst : firstn n words <> []).
  { destruct n; [lia |]. unfold words. discriminate. }
  assert (Hk1 : k1 <> []).
  { apply Hne1. intros Hrev. apply Hfirst.
    rewrite <- (rev_involutive (firstn n words)), Hrev. reflexivity. }
  split.
  { intros Hrev. apply (Hne2 Hk1).
    rewrite <- (rev_involutive k2), Hrev. reflexivity. }
  split.
  { exists (rev d2 ++ rev d1 ++ skipn n words).
    rewrite <- (firstn_skipn n words) at 1.
    rewrite <- (rev_involutive (firstn n words)), Hd1, Hd2.
    now rewrite !rev_app_distr, <- !app_assoc. }
  split; [exact Hfinal |]. split; [reflexivity |].
  destruct (Z.ltb_spec max_tokens (Z.of_nat (cols enc))) as [Hover | Hok].
  - right. split; [exact Hover |].
    destruct (decode_prefix final max_tokens); [| discriminate].
    now injection H as <-.
  - left. split; [exact Hok |]. now injection H as <-.
Qed.

(** X21. Three exits of [truncate_text_to_token_limit].  A limit that is
    not positive raises the ValueError before anything is looked at.
    With a positive limit, a text of whitespace only is returned as the
    empty text, and is no error.  And with no logger passed, a tokenizer
    that raises an Exception on the stripped text ends the call with the
    AttributeError of [logger.error], not with the text. *)
Theorem truncation_exits (t : text) :
  ((max_tokens <= 0)%Z -> truncate t = Fail MaxTokensNotPositive)
  /\ ((0 < max_tokens)%Z -> strip t = [] -> truncate t = Done [])
  /\ ((0 < max_tokens)%Z -> strip t <> [] -> logger = false ->
      forall e, tokenizer (strip t) = Raise e -> is_Exception e = true ->
                truncate t = Fail LoggerIsNone).
Proof.
  unfold truncate_text_to_token_limit. split; [| split].
  - intros H. destruct (Z.leb_spec max_tokens 0); [reflexivity | lia].
  - intros H Hs. destruct (Z.leb_spec max_tokens 0); [lia |].
    now rewrite Hs.
  - intros H Hs Hl e He Hex. destruct (Z.leb_spec max_tokens 0); [lia |].
    destruct (strip t) as [| c r]; [congruence |].
    cbn [nonempty negb]. rewrite He, Hex. unfold log. now rewrite Hl.
Qed.

End TruncateFacts.


Lemma truncate_four_words :
  truncate_text_to_token_limit word_tokenizer word_decode 2 (T " ...")
    false false (T " one two three four ")
  = Done (T "one two")
  /\ (0 < 2)%Z.
Proof.
  assert (H : truncate_text_to_token_limit word_tokenizer word_decode 2
                (T " ...") false false (T " one two three four ")
              = Done (T "one two")) by reflexivity.
  split; [exact H |].
  now destruct (truncation_keeps_a_beginning_of_the_words _ _ _ _ _ _ _ H).
Defined.

Lemma truncate_without_logger :
  truncate_text_to_token_limit broken_tokenizer word_decode 0 (T " ...")
    false false (T "one") = Fail MaxTokensNotPositive
  /\ truncate_text_to_token_limit broken_tokenizer word_decode 5 (T " ...")
       false false (T "  ") = Done []
  /\ truncate_text_to_token_limit broken_tokenizer word_decode 5 (T " ...")
       false false (T "one") = Fail LoggerIsNone.
Proof.
  split; [| split].
  - destruct (truncation_exits broken_tokenizer word_decode 0 (T " ...")
                false false (T "one")) as [H _].
    apply H. lia.
  - destruct (truncation_exits broken_tokenizer word_decode 5 (T " ...")
                false false (T "  ")) as [_ [H _]].
    apply H; [lia | reflexivity].
  - destruct (truncation_exits broken_tokenizer word_decode 5 (T " ...")
                false false (T "one")) as [_ [_ H]].
    apply (H ltac:(lia) ltac:(discriminate) eq_refl
             {| exc_cls := RuntimeError; exc_msg := External 0 |});
      reflexivity.
Defined.


(* ================================================================== *)
(** * The variables handed to the templates *)
(* ================================================================== *)

Section PayloadFacts.

Lemma sget_sset_same (d : sdict) (k : string) (v : yaml_value) :
  sget (sset d k v) k = Some v.
Proof.
  induction d as [| [k0 x] d IH]; simpl.
  - now rewrite String.eqb_refl.
  - destruct (String.eqb k0 k) eqn:E; simpl; now rewrite E.
Qed.

Lemma sget_sset_other (d : sdict) (k k' : string) (v : yaml_value) :
  k <> k' -> sget (sset d k v) k' = sget d k'.
Proof.
  intros Hne. induction d as [| [k0 x] d IH]; simpl.
  - destruct (String.eqb_spec k k'); [contradiction | reflexivity].
  - destruct (String.eqb_spec k0 k) as [-> | Hk]; simpl.
    + destruct (String.eqb_spec k k'); [contradiction | reflexivity].
    + now rewrite IH.
Qed.

Lemma sget_None (d : sdict) (k : string) :
  ~ In k (map fst d) -> sget d k = None.
Proof.
  induction d as [| [k0 x] d IH]; simpl; [reflexivity |].
  intros H. destruct (String.eqb_spec k0 k) as [-> | Hk]; [tauto |].
  apply IH. tauto.
Qed.

Lemma sget_update (b : sdict) :
  forall a k,
    keys_unique b ->
    sget (update a b) k
    = match sget b k with Some v => Some v | None => sget a k end.
Proof.
  unfold update, keys_unique.
  induction b as [| [k0 v0] b IH]; intros a k Hu; [reflexivity |].
  simpl in Hu. inversion Hu as [| ? ? Hnotin Hu']; subst.
  cbn [fold_left fst snd]. rewrite IH by exact Hu'.
  simpl. destruct (String.eqb_spec k0 k) as [-> | Hk].
  - now rewrite (sget_None _ _ Hnotin), sget_sset_same.
  - now rewrite sget_sset_other.
Qed.

Lemma sget_filter (f : string * yaml_value -> bool) (d : sdict) (k : string)
    (v : yaml_value) :
  keys_unique d ->
  (sget (filter f d) k = Some v <-> sget d k = Some v /\ f (k, v) = true).
Proof.
  unfold keys_unique. induction d as [| [k0 x] d IH]; intros Hu; simpl.
  - split; [discriminate | intros [H _]; discriminate].
  - inversion Hu as [| ? ? Hnotin Hu']; subst.
    destruct (String.eqb_spec k0 k) as [-> | Hk].
    + destruct (f (k, x)) eqn:Ef; simpl.
      * rewrite String.eqb_refl. split.
        -- intros H. injection H as <-. auto.
        -- intros [H _]. exact H.
      * split.
        -- intros H. apply (IH Hu') in H as [H _].
           rewrite sget_None in H by exact Hnotin. discriminate.
        -- intros [H Hf]. injection H as <-. congruence.
    + destruct (f (k0, x)); simpl.
      * destruct (String.eqb_spec k0 k); [contradiction | now apply IH].
      * now apply IH.
Qed.

Lemma filter_keys_unique (f : string * yaml_value -> bool) (d : sdict) :
  keys_unique d -> keys_unique (filter f d).
Proof.
  unfold keys_unique. induction d as [| [k0 x] d IH]; intros Hu; simpl;
    [constructor |].
  inversion Hu as [| ? ? Hnotin Hu']; subst.
  destruct (f (k0, x)); simpl; [| now apply IH].
  constructor; [| now apply IH].
  intros Hin. apply Hnotin. apply in_map_iff in Hin as [[k1 y] [Hk Hin]].
  apply filter_In in Hin as [Hin _]. apply in_map_iff. now exists (k1, y).
Qed.

(** X22. The variables a template sees: a public scalar attribute of the
    runtime context wins over the state, which wins over the prompt
    defaults.  An attribute of the context whose name starts with an
    underscore, or whose value is not a string, number or boolean, never
    overrides anything; and without a runtime, or without a context on
    it, only the state and the defaults count. *)
Theorem payloads_precedence
    (prompt_defaults state : sdict) (runtime : option (option sdict))
    (k : string) :
  keys_unique prompt_defaults -> keys_unique state ->
  (forall ctx, runtime = Some (Some ctx) -> keys_unique ctx) ->
  sget (payloads prompt_defaults state runtime) k
  = match sget (runtime_var runtime) k with
    | Some v => Some v
    | None => match sget state k with
              | Some v => Some v
              | None => sget prompt_defaults k
              end
    end
  /\ (forall v,
         sget (runtime_var runtime) k = Some v <->
         exists ctx, runtime = Some (Some ctx)
                     /\ sget ctx k = Some v
                     /\ is_public k = true /\ is_scalar v = true).
Proof.
  intros Hd Hs Hc.
  assert (Hrv : keys_unique (runtime_var runtime)).
  { destruct runtime as [[ctx |] |]; simpl; try constructor.
    apply filter_keys_unique. now apply Hc. }
  split.
  - unfold payloads.
    rewrite !sget_update by assumption.
    simpl. destruct (sget (runtime_var runtime) k); [reflexivity |].
    destruct (sget state k); [reflexivity |].
    now destruct (sget prompt_defaults k).
  - intros v. destruct runtime as [[ctx |] |]; simpl.
    + rewrite sget_filter by now apply Hc.
      simpl. rewrite andb_true_iff. split.
      * intros [H [Hp Hsc]]. exists ctx. auto.
      * intros [ctx' [H [Hg [Hp Hsc]]]]. injection H as <-. auto.
    + split; [discriminate | intros [ctx [H _]]; discriminate].
    + split; [discriminate | intros [ctx [H _]]; discriminate].
Qed.

End PayloadFacts.

Lemma payloads_sample :
  sget (payloads [("tone"%string, YStr "calm"); ("name"%string, YStr "x")]
          [("name"%string, YStr "state")]
          (Some (Some [("name"%string, YStr "ctx");
                       ("_secret"%string, YStr "s");
                       ("tone"%string, YSeq [])])))
       "name"
  = Some (YStr "ctx")
  /\ sget (payloads [("tone"%string, YStr "calm"); ("name"%string, YStr "x")]
             [("name"%string, YStr "state")]
             (Some (Some [("name"%string, YStr "ctx");
                          ("_secret"%string, YStr "s");
                          ("tone"%string, YSeq [])])))
          "tone"
     = Some (YStr "calm").
Proof.
  assert (Hu1 : keys_unique [("tone"%string, YStr "calm");
                             ("name"%string, YStr "x")]).
  { repeat constructor; simpl; intuition discriminate. }
  assert (Hu2 : keys_unique [("name"%string, YStr "state")]).
  { repeat constructor; simpl; intuition discriminate. }
  assert (Hu3 : forall ctx,
             Some (Some [("name"%string, YStr "ctx");
                         ("_secret"%string, YStr "s");
                         ("tone"%string, YSeq [])]) = Some (Some ctx) ->
             keys_unique ctx).
  { intros ctx H. injection H as <-.
    repeat constructor; simpl; intuition discriminate. }
  split.
  - destruct (payloads_precedence "name" Hu1 Hu2 Hu3) as [H _].
    rewrite H. reflexivity.
  - destruct (payloads_precedence "tone" Hu1 Hu2 Hu3) as [H _].
    rewrite H. reflexivity.
Defined.


(* ================================================================== *)
(** * Sleeps and warnings *)
(* ================================================================== *)

Section BackoffFacts.









End BackoffFacts.


(* ================================================================== *)
(** * Standalone blocks *)
(* ================================================================== *)

Section BlockFacts.

Lemma last_nl_in_ws_prefix (a b : text) :
  last_nl_in_ws (a ++ b) = None -> last_nl_in_ws a = None.
Proof.
  induction a as [| c a IH]; [reflexivity |]. simpl.
  destruct (is_space c); [| reflexivity].
  destruct (last_nl_in_ws (a ++ b)); [discriminate |].
  rewrite IH by reflexivity. auto.
Qed.

Lemma sep_at_prefix (a b : text) : sep_at (a ++ b) = None -> sep_at a = None.
Proof.
  destruct a as [| c a]; [reflexivity |]. simpl.
  destruct (is_nl c); [| reflexivity].
  destruct (last_nl_in_ws (a ++ b)) eqn:E; [discriminate |].
  now rewrite (last_nl_in_ws_prefix _ _ E).
Qed.

Lemma skipn_app_le {A} (j : nat) (a b : list A) :
  j <= List.length a -> skipn j (a ++ b) = skipn j a ++ b.
Proof.
  intros H. rewrite skipn_app.
  replace (j - List.length a) with 0 by lia. reflexivity.
Qed.

(** A piece all of whose offsets were passed without a separator, in
    front of the text that follows it, holds no separator. *)
Lemma checked_piece_is_free (piece rest : text) :
  (forall j, j < List.length piece ->
             sep_at (skipn j (piece ++ rest)) = None) ->
  blank_line_free piece.
Proof.
  intros H j. destruct (Nat.lt_ge_cases j (List.length piece)) as [Hlt | Hge].
  - apply (sep_at_prefix _ rest). rewrite <- skipn_app_le by lia. now apply H.
  - now rewrite skipn_all2.
Qed.

Lemma split_from_blocks_free (t : text) :
  forall skip cur,
    (skip = 0 -> forall j, j < List.length cur ->
                           sep_at (skipn j (rev cur ++ t)) = None) ->
    (skip <> 0 -> cur = []) ->
    forall b, In b (split_from t skip cur) -> blank_line_free b.
Proof.
  induction t as [| c t IH]; intros skip cur Hchecked Hskip b.
  - simpl. intros [<- | []].
    destruct skip as [| k].
    + apply (checked_piece_is_free _ []). intros j Hj.
      apply Hchecked; [reflexivity | now rewrite length_rev in Hj].
    + rewrite (Hskip ltac:(discriminate)). intros j. now destruct j.
  - cbn [split_from]. destruct skip as [| k].
    + destruct (sep_at (c :: t)) as [len |] eqn:E.
      * intros [<- | Hin].
        -- apply (checked_piece_is_free _ (c :: t)). intros j Hj.
           apply Hchecked; [reflexivity | now rewrite length_rev in Hj].
        -- apply (IH (len - 1) []); [| reflexivity | exact Hin].
           intros _ j Hj. simpl in Hj. lia.
      * apply IH; [| intros H; exfalso; now apply H].
        intros _ j Hj. simpl in Hj. simpl rev. rewrite <- app_assoc.
        destruct (Nat.lt_ge_cases j (List.length cur)) as [Hlt | Hge].
        -- now apply Hchecked.
        -- replace j with (List.length (rev cur))
             by (rewrite length_rev; lia).
           rewrite skipn_app_length. exact E.
    + rewrite (Hskip ltac:(discriminate)).
      apply IH; [| reflexivity].
      intros _ j Hj. simpl in Hj. lia.
Qed.

(** X24. A standalone segment never spans a blank line: nowhere in it
    does a newline start a run of whitespace that holds another
    newline. *)
Theorem standalone_segments_span_no_blank_line (t seg : text) :
  In seg (standalone_segments (re_split t)) -> blank_line_free seg.
Proof.
  intros Hin. apply standalone_segments_In in Hin as [b [Hb [-> _]]].
  assert (Hfree : blank_line_free b).
  { apply (@split_from_blocks_free t 0 []);
      [| intros H; exfalso; now apply H | exact Hb].
    intros _ j Hj. simpl in Hj. lia. }
  destruct (strip_split b) as [p [q [Hsplit _]]].
  apply (checked_piece_is_free _ q). intros j Hj.
  specialize (Hfree (List.length p + j)).
  rewrite Hsplit in Hfree at 1.
  rewrite Nat.add_comm, <- skipn_skipn, skipn_app_length in Hfree.
  exact Hfree.
Qed.

End BlockFacts.

Lemma two_blocks_span_no_blank_line :
  In (T "title: A")
     (standalone_segments (re_split (paragraphs [T "title: A"; T "title: B"])))
  /\ sep_at (T "title: A") = None.
Proof.
  assert (H : In (T "title: A")
                (standalone_segments
                   (re_split (paragraphs [T "title: A"; T "title: B"]))))
    by (vm_compute; left; reflexivity).
  split; [exact H |].
  apply (standalone_segments_span_no_blank_line _ _ H 0).
Defined.

